(** * buff-utils: the byte buffer [Buff], its varint codec and the
      sequential reader [Stream] (src/buff.ts)

    The development embeds the TypeScript source shallowly.

    - A JavaScript [number] holding an integer is a [Z]; a byte of a
      [Uint8Array] is a [Byte.byte], so that the range 0..255 is carried by
      the type, exactly as the typed array carries it.  (A [number] is a
      double.  A number passed to the code is an integer among others, so
      a statement over all integer arguments covers it.  A number computed
      by the code, as [toNum] computes one from bytes, is the exact integer
      only below 2^53; the statements about decoded numbers keep below
      that bound.)
    - A [Uint8Array]/[Buff] value is the list of its bytes.  The object level
      (identity of arrays, copies against in-place updates) is modelled
      separately in [Module Obj], over a heap of typed arrays.
    - A thrown [Error] is a value of [result]; the statements of [Stream],
      which mutate [this.data] and [this.size], are state transformers that
      hand the state back also when they throw.
    - The helpers imported from ./format/index.js and ./utils.js are not part
      of the source under study.  [util.pad_array] is a parameter of the
      development (Section variable); a model of it that follows the
      specification is given for the statements that are about padding
      itself.  The other helpers are modelled from the specification. *)

From Stdlib Require Import ZArith Lia List.
From Stdlib.Strings Require Import Byte String Ascii.
From stdpp Require Import base option list gmap.
Import ListNotations.

Local Open Scope Z_scope.

(** ** Bytes and numbers *)

Abbreviation byte := Byte.byte.

(** A buffer value: the contents of a [Uint8Array]. *)
Definition Buff : Type := list byte.

(** The number read from an element of a typed array. *)
Definition byte_to_Z (b : byte) : Z := Z.of_N (Byte.to_N b).

(** The element stored by a typed array for a number (ToUint8: the number
    modulo 256). *)
Definition byte_of_Z (z : Z) : byte :=
  match Byte.of_N (Z.to_N (z mod 256)) with
  | Some b => b
  | None => Byte.x00
  end.

(** The endianness selector of ./types.js. *)
Inductive Endian : Type := be | le.

(** An optional [endian] argument with the default ['be'] of the source. *)
Definition endian_or_be (endian : option Endian) : Endian :=
  match endian with
  | Some e => e
  | None => be
  end.

(** ** Errors *)

(** The three [throw] statements of src/buff.ts, under the names the
    specification gives them, and the failure of a decoding helper. *)
Inductive Error : Type :=
| SizeExceeded (size remaining : Z)   (* "Size greater than stream" *)
| ValueTooLarge (num : Z)             (* "Value is too large" *)
| InvalidPrefix (num : Z)             (* "Varint is out of range" *)
| MalformedEncoding.

(** The outcome of a call: the value returned or the error thrown. *)
Inductive result (A : Type) : Type :=
| Ok (a : A)
| Err (e : Error).

Arguments Ok {A} a.
Arguments Err {A} e.

Definition is_ok {A} (r : result A) : bool :=
  match r with
  | Ok _ => true
  | Err _ => false
  end.

(** ** Helpers of ./format/index.js *)

(** The base-256 digits of [n], least significant first; [fuel] bounds their
    number. *)
Fixpoint digits256 (fuel : nat) (n : N) : list byte :=
  match fuel with
  | O => []
  | S fuel' =>
      if (n =? 0)%N then []
      else byte_of_Z (Z.of_N (n mod 256)) :: digits256 fuel' (n / 256)
  end.

(** Modelled from the spec: [fmt.numToBytes] is missing from the source.  The
    specification describes the numeric converter as producing the "natural
    little-endian byte order", which [numToBuff] reverses for big-endian.
    The model is the list of base-256 digits of the number, least
    significant first, with no padding byte of its own (the padding is the
    work of [pad_array]); a number that is not positive has no digit. *)
Definition numToBytes (number : Z) : list byte :=
  digits256 (N.to_nat (N.size (Z.to_N number))) (Z.to_N number).

(** Modelled from the spec: [fmt.bytesToNum] is missing from the source.  It
    is the inverse conversion: the value of the bytes read as base-256
    digits in the natural little-endian order. *)
Fixpoint bytesToNum (bytes : list byte) : Z :=
  match bytes with
  | [] => 0
  | b :: rest => byte_to_Z b + 256 * bytesToNum rest
  end.

(** Modelled from the spec: [fmt.bigToBytes] is missing from the source.  The
    specification gives the big-integer converter "the same endianness rule"
    as the numeric one: the base-256 digits of the integer, least
    significant first. *)
Definition bigToBytes (number : Z) : list byte :=
  digits256 (N.to_nat (N.size (Z.to_N number))) (Z.to_N number).

(** Modelled from the spec: [fmt.bytesToBig] is missing from the source.  The
    value of the bytes read as base-256 digits, least significant first. *)
Fixpoint bytesToBig (bytes : list byte) : Z :=
  match bytes with
  | [] => 0
  | b :: rest => byte_to_Z b + 256 * bytesToBig rest
  end.

(** ** Padding *)

(** Where [pad_array] puts the zero bytes when it grows an array, and which
    end it keeps when it shrinks one.  The specification leaves both open. *)
Inductive Side : Type := AtStart | AtEnd.

Record PadPolicy : Type := {
  zeros_side : Side;
  kept_side  : Side
}.

(** Modelled from the spec: [util.pad_array] is missing from the source.  The
    specification: "pad/truncate-to-size(bytes, target length) -> bytes of
    exactly target length", zero bytes for padding, the side unspecified. *)
Definition pad_array_model (p : PadPolicy) (bytes : list byte) (size : Z)
  : list byte :=
  let n := Z.to_nat size in
  let len := length bytes in
  if (len <=? n)%nat then
    match zeros_side p with
    | AtStart => repeat Byte.x00 (n - len) ++ bytes
    | AtEnd => bytes ++ repeat Byte.x00 (n - len)
    end
  else
    match kept_side p with
    | AtStart => firstn n bytes
    | AtEnd => skipn (len - n) bytes
    end.

(** Zeros in front, as a big-endian integer needs them. *)
Definition pad_left : PadPolicy := {| zeros_side := AtStart; kept_side := AtEnd |}.

(** Zeros behind, as a little-endian integer needs them. *)
Definition pad_right : PadPolicy := {| zeros_side := AtEnd; kept_side := AtStart |}.

(** Modelled from the spec: [util.join_array] is missing from the source.  The
    specification: it "concatenates an ordered list of byte-like sources,
    preserving order". *)
Definition join_array (arr : list (list byte)) : list byte := concat arr.

(** ** [Uint8Array.prototype.slice] *)

(** The relative index of ECMAScript: a negative index counts from the end,
    and every index is clamped to [0, len]. *)
Definition rel_index (len k : Z) : Z :=
  if k <? 0 then Z.max (len + k) 0 else Z.min k len.

(** [arr.slice(start, end)]. *)
Definition js_slice (arr : list byte) (start end_ : Z) : list byte :=
  let len := Z.of_nat (length arr) in
  let k := rel_index len start in
  let final := rel_index len end_ in
  firstn (Z.to_nat (Z.max (final - k) 0)) (skipn (Z.to_nat k) arr).

(** [arr.slice(start)]: the end defaults to the length. *)
Definition js_slice_from (arr : list byte) (start : Z) : list byte :=
  js_slice arr start (Z.of_nat (length arr)).

(** ** [Uint8Array.prototype.set] *)

(** The outcome of [target.set(source, offset)]: the new contents of the
    target, or the RangeError "offset is out of bounds". *)
Inductive set_result : Type :=
| SetOk (target : list byte)
| SetRangeError.

(** [target.set(source, offset)]: a negative offset and a source that does
    not fit behind the offset throw; otherwise the elements of the source
    overwrite those of the target from the offset on. *)
Definition js_set (target source : list byte) (offset : Z) : set_result :=
  if offset <? 0 then SetRangeError
  else if Z.of_nat (length source) + offset >? Z.of_nat (length target)
  then SetRangeError
  else
    let k := Z.to_nat offset in
    SetOk (firstn k target ++ source ++ skipn (k + length source) target).

(** ** The class [Buff] *)

Section BuffCode.

(** [util.pad_array], taken as a parameter. *)
Variable pad_array : list byte -> Z -> list byte.

(** [constructor (data, size?)].  [fmt.buffer] is the identity on data that
    are bytes already, which is all the code below passes to it. *)
Definition Buff_new (data : list byte) (size : option Z) : Buff :=
  let bytes := data in
  match size with
  | Some n => pad_array bytes n
  | None => bytes
  end.

(** [Buff.bytes = bytesToBuff]. *)
Definition bytesToBuff (data : list byte) (size : option Z) : Buff :=
  Buff_new data size.

(** [reverse ()]: a copy of the receiver, reversed. *)
Definition Buff_reverse (this : Buff) : Buff :=
  let arr := rev this in
  Buff_new arr None.

(** [toNum (endian = 'be')].  The result is the integer of the bytes; the
    code computes it as a double, which is that integer below 2^53. *)
Definition toNum (this : Buff) (endian : option Endian) : Z :=
  let bytes :=
    match endian_or_be endian with
    | be => Buff_reverse this
    | le => this
    end in
  bytesToNum bytes.

(** The getter [num]. *)
Definition Buff_num (this : Buff) : Z := toNum this None.

(** [Buff.of (...args)]: a typed array of the given numbers. *)
Definition Buff_of (args : list Z) : Buff :=
  Buff_new (map byte_of_Z args) None.

(** The spread [...buff] of a buffer into numbers. *)
Definition spread (b : Buff) : list Z := map byte_to_Z b.

(** [numToBuff (number, size?, endian = 'be')], which is [Buff.num]. *)
Definition numToBuff (number : Z) (size : option Z) (endian : option Endian)
  : Buff :=
  let n := numToBytes number in
  let n :=
    match endian_or_be endian with
    | be => rev n
    | le => n
    end in
  Buff_new n size.

(** [static varInt (num, endian?)]. *)
Definition varInt (num : Z) (endian : option Endian) : result Buff :=
  if num <? 0xFD then
    Ok (numToBuff num (Some 1) None)
  else if num <? 0x10000 then
    Ok (Buff_of (0xFD :: spread (numToBuff num (Some 2) endian)))
  else if num <? 0x100000000 then
    Ok (Buff_of (0xFE :: spread (numToBuff num (Some 4) endian)))
  else if num <? 0x10000000000000000 then
    Ok (Buff_of (0xFF :: spread (numToBuff num (Some 8) endian)))
  else
    Err (ValueTooLarge num).

(** ** The class [Stream] *)

(** The two fields of a [Stream] object. *)
Record Stream : Type := {
  size : Z;
  data : list byte
}.

(** A method of [Stream]: it returns or throws, and leaves a state behind
    in both cases. *)
Definition M (A : Type) : Type := Stream -> result A * Stream.

Definition ret {A} (a : A) : M A := fun s => (Ok a, s).

Definition throw {A} (e : Error) : M A := fun s => (Err e, s).

Definition bind {A B} (m : M A) (k : A -> M B) : M B :=
  fun s =>
    match m s with
    | (Ok a, s') => k a s'
    | (Err e, s') => (Err e, s')
    end.

Notation "'let*' x := m 'in' k" := (bind m (fun x => k))
  (at level 10, x name, m at level 100, k at level 200).

(** [constructor (data)]. *)
Definition Stream_new (bytes : list byte) : Stream :=
  let d := bytesToBuff bytes None in
  {| data := d; size := Z.of_nat (length d) |}.

(** The getter [stream] of [Buff]. *)
Definition Buff_stream (this : Buff) : Stream := Stream_new this.

(** [peek (size)]. *)
Definition peek (sz : Z) : M Buff :=
  fun s =>
    if sz >? size s then (Err (SizeExceeded sz (size s)), s)
    else (Ok (Buff_new (js_slice (data s) 0 sz) None), s).

(** The statements of [read] that follow the resolution of its argument:
    [chunk = this.peek(size); this.data = this.data.slice(size);
     this.size = this.data.length; return chunk]. *)
Definition read_sized (sz : Z) : M Buff :=
  let* chunk := peek sz in
  fun s =>
    let d := js_slice_from (data s) sz in
    (Ok chunk, {| data := d; size := Z.of_nat (length d) |}).

(** [readSize (endian?)].  Its calls [this.read(1)], [this.read(2)], ...
    pass a size, so they run [read_sized]; the [switch (true)] takes the
    first case whose test holds. *)
Definition readSize (endian : option Endian) : M Z :=
  let* first := read_sized 1 in
  let num := Buff_num first in
  if (0 <=? num) && (num <? 0xFD) then ret num
  else if num =? 0xFD then
    let* b := read_sized 2 in ret (toNum b endian)
  else if num =? 0xFE then
    let* b := read_sized 4 in ret (toNum b endian)
  else if num =? 0xFF then
    let* b := read_sized 8 in ret (toNum b endian)
  else throw (InvalidPrefix num).

(** [read (size)], whose first statement is [size = size ?? this.readSize()]:
    an omitted size is decoded from the stream, with the default
    endianness. *)
Definition read (sz : option Z) : M Buff :=
  let* n := match sz with
            | Some n => ret n
            | None => readSize None
            end in
  read_sized n.

(** A run of [read (size)] calls, collecting the chunks; it stops at the
    first call that throws. *)
Fixpoint reads (sizes : list Z) : M (list Buff) :=
  match sizes with
  | [] => ret []
  | sz :: rest =>
      let* chunk := read (Some sz) in
      let* chunks := reads rest in
      ret (chunk :: chunks)
  end.

(** A run of [peek (size)] calls; a call that throws is caught and the run
    goes on.  Only the final state is of interest. *)
Fixpoint peeks (sizes : list Z) (s : Stream) : Stream :=
  match sizes with
  | [] => s
  | sz :: rest => peeks rest (snd (peek sz s))
  end.

(** [static join (arr)]. *)
Definition Buff_join (arr : list (list byte)) : Buff :=
  let bytes := map (fun e => bytesToBuff e None) arr in
  let joined := join_array bytes in
  Buff_new joined None.

(** [prefixSize (endian?)]. *)
Definition prefixSize (this : Buff) (endian : option Endian) : result Buff :=
  match varInt (Z.of_nat (length this)) endian with
  | Ok sz => Ok (Buff_join [sz; this])
  | Err e => Err e
  end.

(** [toBig (endian = 'be')]. *)
Definition toBig (this : Buff) (endian : option Endian) : Z :=
  let bytes :=
    match endian_or_be endian with
    | be => Buff_reverse this
    | le => this
    end in
  bytesToBig bytes.

(** [bigToBuff (number, size?, endian = 'be')], which is [Buff.big]. *)
Definition bigToBuff (number : Z) (size : option Z) (endian : option Endian)
  : Buff :=
  let b := bigToBytes number in
  let b :=
    match endian_or_be endian with
    | be => rev b
    | le => b
    end in
  Buff_new b size.

(** The getter [arr]: the numbers of the bytes, [[ ...this ]]. *)
Definition Buff_arr (this : Buff) : list Z := spread this.

(** [static from (data)] for an array of numbers. *)
Definition Buff_from (args : list Z) : Buff :=
  Buff_new (map byte_of_Z args) None.

(** [slice (start?, end?)]: an omitted start is 0, an omitted end is the
    length. *)
Definition Buff_slice (this : Buff) (start end_ : option Z) : Buff :=
  let arr :=
    js_slice this (default 0 start)
      (default (Z.of_nat (length this)) end_) in
  Buff_new arr None.

(** [subarray (begin?, end?)]: the same indices, on a copy of the
    receiver. *)
Definition Buff_subarray (this : Buff) (begin end_ : option Z) : Buff :=
  let arr :=
    js_slice this (default 0 begin)
      (default (Z.of_nat (length this)) end_) in
  Buff_new arr None.

(** [prepend (data)]. *)
Definition prepend (this : Buff) (bytes : list byte) : Buff :=
  Buff_join [bytesToBuff bytes None; this].

(** [append (data)]. *)
Definition append (this : Buff) (bytes : list byte) : Buff :=
  Buff_join [this; bytesToBuff bytes None].

(** [write (bytes, offset?)]: the new contents of the receiver, or the
    RangeError of [set]. *)
Definition Buff_write (this : Buff) (bytes : list byte) (offset : option Z)
  : set_result :=
  let b := bytesToBuff bytes None in
  js_set this b (default 0 offset).

(** A run of [count] calls of [read ()], each decoding its own length
    prefix, collecting the payloads; it stops at the first call that
    throws. *)
Fixpoint read_fields (count : nat) : M (list Buff) :=
  match count with
  | O => ret []
  | S k =>
      let* payload := read None in
      let* payloads := read_fields k in
      ret (payload :: payloads)
  end.

End BuffCode.

(** ** Hexadecimal strings *)

(** The value of a hex digit, of either case. *)
Definition hex_value (c : ascii) : option N :=
  let n := N_of_ascii c in
  if ((48 <=? n) && (n <=? 57))%N then Some (n - 48)%N          (* 0-9 *)
  else if ((97 <=? n) && (n <=? 102))%N then Some (n - 87)%N    (* a-f *)
  else if ((65 <=? n) && (n <=? 70))%N then Some (n - 55)%N     (* A-F *)
  else None.

(** The lowercase hex digit of a value below 16. *)
Definition hex_char (n : N) : ascii :=
  if (n <? 10)%N then ascii_of_N (48 + n) else ascii_of_N (87 + n).

(** Modelled from the spec: [fmt.hexToBytes] is missing from the source.  The
    specification: a hex string is made of an even number of hex digits, a
    byte per pair; any other string is rejected (MalformedEncoding). *)
Fixpoint hexToBytes (s : string) : result (list byte) :=
  match s with
  | EmptyString => Ok []
  | String _ EmptyString => Err MalformedEncoding
  | String hi (String lo rest) =>
      match hex_value hi, hex_value lo, hexToBytes rest with
      | Some h, Some l, Ok bytes =>
          Ok (byte_of_Z (Z.of_N (16 * h + l)) :: bytes)
      | _, _, _ => Err MalformedEncoding
      end
  end.

(** Modelled from the spec: [fmt.bytesToHex] is missing from the source.  Two
    lowercase hex digits per byte. *)
Fixpoint bytesToHex (bytes : list byte) : string :=
  match bytes with
  | [] => EmptyString
  | b :: rest =>
      let n := Byte.to_N b in
      String (hex_char (n / 16)) (String (hex_char (n mod 16)) (bytesToHex rest))
  end.

(** [hexToBuff (data, size?)], which is [Buff.hex]. *)
Definition hexToBuff (pad_array : list byte -> Z -> list byte)
    (data : string) (size : option Z) : result Buff :=
  match hexToBytes data with
  | Ok bytes => Ok (Buff_new pad_array bytes size)
  | Err e => Err e
  end.

(** [toHex ()] and the getter [hex]. *)
Definition toHex (this : Buff) : string := bytesToHex this.

(** ** The object level: typed arrays in a store

    [Buff.reverse] and [Stream.peek] are said to return a new buffer and to
    leave their receiver alone.  That is a statement about objects: whether a
    method copies an array or updates it in place.  Here an array is a
    location of a store, and the built-in operations of [Uint8Array] are
    given with the effect they have in ECMAScript.  A result of [None] means
    that a location is not allocated, which no run of the code produces. *)

Module Obj.

(** A reference to a typed array. *)
Abbreviation ref := positive.

(** The store: the contents of every typed array allocated so far. *)
Abbreviation store := (gmap positive (list byte)).

(** Allocation of a new array with the given contents. *)
Definition alloc (h : store) (bytes : list byte) : ref * store :=
  let r := fresh (dom h) in (r, <[r := bytes]> h).

(** [new Uint8Array(src)], and likewise [super(bytes)] in the constructor
    of [Buff]: a new array with a copy of the elements of [src]. *)
Definition Uint8Array_new (h : store) (src : ref) : option (ref * store) :=
  bytes ← h !! src; Some (alloc h bytes).

(** [arr.reverse()]: reverses the elements of [arr] in place, returns
    [arr] itself. *)
Definition Uint8Array_reverse (h : store) (arr : ref) : option (ref * store) :=
  bytes ← h !! arr; Some (arr, <[arr := rev bytes]> h).

(** [arr.slice(start, end)]: a new array. *)
Definition Uint8Array_slice (h : store) (arr : ref) (start end_ : Z)
  : option (ref * store) :=
  bytes ← h !! arr; Some (alloc h (js_slice bytes start end_)).

(** [new Buff(arr)] for a typed array [arr] and no size: [fmt.buffer]
    hands the array on, [super] copies it. *)
Definition Buff_new (h : store) (arr : ref) : option (ref * store) :=
  Uint8Array_new h arr.

(** [reverse ()]: [arr = new Uint8Array(this).reverse(); new Buff(arr)]. *)
Definition Buff_reverse (h : store) (this : ref) : option (ref * store) :=
  '(copy, h1) ← Uint8Array_new h this;
  '(arr, h2) ← Uint8Array_reverse h1 copy;
  Buff_new h2 arr.

(** A [Stream] object: [this.data] is a reference, [this.size] a number. *)
Record Stream : Type := {
  size : Z;
  data : ref
}.

(** [peek (size)]: the store and the stream object before and after. *)
Definition peek (sz : Z) (h : store) (s : Stream)
  : option (result ref * store * Stream) :=
  if sz >? size s then Some (Err (SizeExceeded sz (size s)), h, s)
  else
    '(sl, h1) ← Uint8Array_slice h (data s) 0 sz;
    '(b, h2) ← Buff_new h1 sl;
    Some (Ok b, h2, s).

(** A run of [peek] calls, thrown errors caught; the results are dropped. *)
Fixpoint peeks (sizes : list Z) (h : store) (s : Stream)
  : option (store * Stream) :=
  match sizes with
  | [] => Some (h, s)
  | sz :: rest =>
      '(_, h1, s1) ← peek sz h s;
      peeks rest h1 s1
  end.

(** [arr.slice(start)]: a new array, the end being the length. *)
Definition Uint8Array_slice_from (h : store) (arr : ref) (start : Z)
  : option (ref * store) :=
  bytes ← h !! arr; Some (alloc h (js_slice_from bytes start)).

(** A typed array that is a window on the elements of another one, as
    [subarray] returns it: no element is copied. *)
Record view : Type := {
  view_of : ref;
  view_offset : nat;
  view_length : nat
}.

(** [arr.subarray(begin, end)]. *)
Definition Uint8Array_subarray (h : store) (arr : ref) (begin end_ : Z)
  : option view :=
  bytes ← h !! arr;
  let len := Z.of_nat (length bytes) in
  let k := rel_index len begin in
  let final := rel_index len end_ in
  Some {| view_of := arr;
          view_offset := Z.to_nat k;
          view_length := Z.to_nat (Z.max (final - k) 0) |}.

(** The elements seen through a view. *)
Definition view_bytes (h : store) (v : view) : option (list byte) :=
  bytes ← h !! view_of v;
  Some (firstn (view_length v) (skipn (view_offset v) bytes)).

(** [new Buff(arr)] for a view [arr] and no size: [super] copies the
    elements seen through the view into a new array. *)
Definition Buff_new_view (h : store) (v : view) : option (ref * store) :=
  bytes ← view_bytes h v; Some (alloc h bytes).

(** [slice (start?, end?)]:
    [arr = new Uint8Array(this).slice(start, end); new Buff(arr)]. *)
Definition Buff_slice (h : store) (this : ref) (start end_ : option Z)
  : option (ref * store) :=
  '(copy, h1) ← Uint8Array_new h this;
  bytes ← h1 !! copy;
  '(arr, h2) ← Uint8Array_slice h1 copy (default 0 start)
                 (default (Z.of_nat (length bytes)) end_);
  Buff_new h2 arr.

(** [subarray (begin?, end?)]:
    [arr = new Uint8Array(this).subarray(begin, end); new Buff(arr)]. *)
Definition Buff_subarray (h : store) (this : ref) (begin end_ : option Z)
  : option (ref * store) :=
  '(copy, h1) ← Uint8Array_new h this;
  bytes ← h1 !! copy;
  arr ← Uint8Array_subarray h1 copy (default 0 begin)
          (default (Z.of_nat (length bytes)) end_);
  Buff_new_view h1 arr.

(** [target.set(source, offset)]: the target is updated in place; a thrown
    RangeError ([false]) leaves the store as it was. *)
Definition Uint8Array_set (h : store) (target source : ref) (offset : Z)
  : option (bool * store) :=
  t ← h !! target;
  s ← h !! source;
  match js_set t s offset with
  | SetOk t' => Some (true, <[target := t']> h)
  | SetRangeError => Some (false, h)
  end.

(** [write (bytes, offset?)]: [b = Buff.bytes(bytes); this.set(b, offset)]. *)
Definition Buff_write (h : store) (this bytes : ref) (offset : option Z)
  : option (bool * store) :=
  '(b, h1) ← Buff_new h bytes;
  Uint8Array_set h1 this b (default 0 offset).

(** [new Stream(data)] for a buffer [data]:
    [this.data = Buff.bytes(data); this.size = this.data.length]. *)
Definition Stream_new (h : store) (buff : ref) : option (Stream * store) :=
  '(d, h1) ← Buff_new h buff;
  bytes ← h1 !! d;
  Some ({| data := d; size := Z.of_nat (length bytes) |}, h1).

(** [read (size)] with the size given: the chunk of [peek], then
    [this.data = this.data.slice(size); this.size = this.data.length]. *)
Definition read_sized (sz : Z) (h : store) (s : Stream)
  : option (result ref * store * Stream) :=
  '(res, h1, s1) ← peek sz h s;
  match res with
  | Err e => Some (Err e, h1, s1)
  | Ok chunk =>
      '(d, h2) ← Uint8Array_slice_from h1 (data s1) sz;
      bytes ← h2 !! d;
      Some (Ok chunk, h2, {| data := d; size := Z.of_nat (length bytes) |})
  end.

(** A run of [read (size)] calls, thrown errors caught; the chunks are
    dropped. *)
Fixpoint reads (sizes : list Z) (h : store) (s : Stream)
  : option (store * Stream) :=
  match sizes with
  | [] => Some (h, s)
  | sz :: rest =>
      '(_, h1, s1) ← read_sized sz h s;
      reads rest h1 s1
  end.

(** [toNum (endian = 'be')] on objects: for big-endian the receiver is
    reversed into a new buffer first; the bytes are then read as a number. *)
Definition toNum (h : store) (this : ref) (endian : option Endian)
  : option (Z * store) :=
  match endian_or_be endian with
  | be =>
      '(r, h1) ← Buff_reverse h this;
      bytes ← h1 !! r;
      Some (bytesToNum bytes, h1)
  | le =>
      bytes ← h !! this;
      Some (bytesToNum bytes, h)
  end.

(** [this.read(width).toNum(endian)], as the long cases of [readSize] run
    it. *)
Definition read_toNum (width : Z) (endian : option Endian)
    (h : store) (s : Stream) : option (result Z * store * Stream) :=
  '(res, h1, s1) ← read_sized width h s;
  match res with
  | Err e => Some (Err e, h1, s1)
  | Ok b => '(n, h2) ← toNum h1 b endian; Some (Ok n, h2, s1)
  end.

(** [readSize (endian?)] on objects. *)
Definition readSize (endian : option Endian) (h : store) (s : Stream)
  : option (result Z * store * Stream) :=
  '(res, h1, s1) ← read_sized 1 h s;
  match res with
  | Err e => Some (Err e, h1, s1)
  | Ok first =>
      '(num, h2) ← toNum h1 first None;
      if (0 <=? num) && (num <? 0xFD) then Some (Ok num, h2, s1)
      else if num =? 0xFD then read_toNum 2 endian h2 s1
      else if num =? 0xFE then read_toNum 4 endian h2 s1
      else if num =? 0xFF then read_toNum 8 endian h2 s1
      else Some (Err (InvalidPrefix num), h2, s1)
  end.

(** [read (size)] on objects, the size given or omitted:
    [size = size ?? this.readSize()] and then the statements of
    [read_sized]. *)
Definition read (sz : option Z) (h : store) (s : Stream)
  : option (result ref * store * Stream) :=
  match sz with
  | Some n => read_sized n h s
  | None =>
      '(res, h1, s1) ← readSize None h s;
      match res with
      | Err e => Some (Err e, h1, s1)
      | Ok n => read_sized n h1 s1
      end
  end.

End Obj.

(** ** Vocabulary of the statements *)

(** The number of elements that [slice(0, k)] keeps and [slice(k)] drops. *)
Definition cut (arr : list byte) (k : Z) : nat :=
  Z.to_nat (rel_index (Z.of_nat (length arr)) k).

(** The invariant of a [Stream]: the remaining length is the length of the
    remaining bytes. *)
Definition Stream_ok (s : Stream) : Prop :=
  size s = Z.of_nat (length (data s)).

(** The state with the given remaining bytes. *)
Definition Stream_of (bytes : list byte) : Stream :=
  {| data := bytes; size := Z.of_nat (length bytes) |}.

(** What the specification asks of the padding helper: the result has
    exactly the target length. *)
Definition pads_to_size (pad : list byte -> Z -> list byte) : Prop :=
  forall (bytes : list byte) (n : Z),
    0 <= n -> length (pad bytes n) = Z.to_nat n.

(** A padding helper that puts the zero bytes in front when it grows an
    array. *)
Definition pads_zeros_front (pad : list byte -> Z -> list byte) : Prop :=
  forall (bytes : list byte) (n : Z),
    Z.of_nat (length bytes) <= n ->
    pad bytes n = repeat Byte.x00 (Z.to_nat n - length bytes) ++ bytes.

(** A padding helper that puts the zero bytes behind. *)
Definition pads_zeros_back (pad : list byte -> Z -> list byte) : Prop :=
  forall (bytes : list byte) (n : Z),
    Z.of_nat (length bytes) <= n ->
    pad bytes n = bytes ++ repeat Byte.x00 (Z.to_nat n - length bytes).

(** The varint wire format in the words of the specification: the
    [width]-byte integer equal to [n], least significant byte first ... *)
Fixpoint uint_le (width : nat) (n : Z) : list byte :=
  match width with
  | O => []
  | S w => byte_of_Z n :: uint_le w (n / 256)
  end.

(** ... and in the requested endianness: big-endian places the most
    significant byte first. *)
Definition uint_bytes (e : Endian) (width : nat) (n : Z) : list byte :=
  match e with
  | le => uint_le width n
  | be => rev (uint_le width n)
  end.

(** The table of the four wire forms, and the failure above them. *)
Definition varint_table (n : Z) (e : Endian) : result (list byte) :=
  if n <? 0xFD then Ok [byte_of_Z n]
  else if n <? 0x10000 then Ok (Byte.xfd :: uint_bytes e 2 n)
  else if n <? 0x100000000 then Ok (Byte.xfe :: uint_bytes e 4 n)
  else if n <? 2 ^ 64 then Ok (Byte.xff :: uint_bytes e 8 n)
  else Err (ValueTooLarge n).

(** The varint round trip at [n] and [endian]: the encoder returns bytes, and
    the decoder over exactly those bytes returns [n] and leaves nothing. *)
Definition round_trip (pad : list byte -> Z -> list byte)
    (n : Z) (endian : option Endian) : Prop :=
  exists bytes : Buff,
    varInt pad n endian = Ok bytes /\
    readSize pad endian (Stream_new pad bytes) = (Ok n, Stream_of []).

(** A padding helper that puts its zeros where the given endianness needs
    them: in front for big-endian, behind for little-endian. *)
Definition pad_suits (pad : list byte -> Z -> list byte) (e : Endian) : Prop :=
  match e with
  | be => pads_zeros_front pad
  | le => pads_zeros_back pad
  end.

(** The number of bytes of the wire form of a number below 2^64. *)
Definition varint_length (num : Z) : nat :=
  if num <? 0xFD then 1%nat
  else if num <? 0x10000 then 3%nat
  else if num <? 0x100000000 then 5%nat
  else 9%nat.

(** The first byte of the wire form of a number from 0xFD up to 2^64 - 1. *)
Definition varint_marker (num : Z) : byte :=
  if num <? 0x10000 then Byte.xfd
  else if num <? 0x100000000 then Byte.xfe
  else Byte.xff.

(** The three markers of [readSize] and the number of bytes that follow
    each. *)
Definition long_form (marker : byte) (width : nat) : Prop :=
  (marker = Byte.xfd /\ width = 2%nat) \/
  (marker = Byte.xfe /\ width = 4%nat) \/
  (marker = Byte.xff /\ width = 8%nat).

(** The bytes that [readSize ()] takes for the number [n] with the default
    endianness: one byte below 0xFD equal to [n], or a marker followed by
    the 2, 4 or 8 bytes of [n], most significant first.  (The second form
    need not be the shortest one.) *)
Definition varint_form (prefix : list byte) (n : Z) : Prop :=
  (0 <= n < 0xFD /\ prefix = [byte_of_Z n]) \/
  (exists (marker : byte) (width : nat),
      long_form marker width /\
      0 <= n < 256 ^ Z.of_nat width /\
      prefix = marker :: uint_bytes be width n).

(** The wire bytes of a list of fields, each behind its length prefix:
    [Buff.join(payloads.map(p => p.prefixSize(endian)))]. *)
Fixpoint prefix_all (pad : list byte -> Z -> list byte)
    (payloads : list Buff) (endian : option Endian) : result (list Buff) :=
  match payloads with
  | [] => Ok []
  | payload :: rest =>
      match prefixSize pad payload endian, prefix_all pad rest endian with
      | Ok field, Ok fields => Ok (field :: fields)
      | Err e, _ => Err e
      | _, Err e => Err e
      end
  end.

(** * Properties *)

(** ** Bytes *)

Lemma byte_to_Z_range (b : byte) : 0 <= byte_to_Z b < 256.
Proof.
  unfold byte_to_Z. pose proof (Byte.to_N_bounded b). lia.
Qed.

Lemma byte_of_to_Z (b : byte) : byte_of_Z (byte_to_Z b) = b.
Proof.
  unfold byte_of_Z. pose proof (byte_to_Z_range b) as Hr.
  rewrite Z.mod_small by exact Hr.
  unfold byte_to_Z. rewrite N2Z.id, Byte.of_to_N. reflexivity.
Qed.

Lemma byte_to_of_Z (z : Z) : byte_to_Z (byte_of_Z z) = z mod 256.
Proof.
  unfold byte_of_Z, byte_to_Z.
  pose proof (Z.mod_pos_bound z 256 ltac:(lia)) as Hr.
  destruct (Byte.of_N (Z.to_N (z mod 256))) as [b|] eqn:E.
  - apply Byte.to_of_N in E. rewrite E. lia.
  - apply Byte.of_N_None_iff in E. lia.
Qed.

Lemma map_byte_of_to_Z (l : list byte) : map byte_of_Z (map byte_to_Z l) = l.
Proof.
  induction l as [|b l IH]; simpl; [reflexivity|].
  rewrite byte_of_to_Z, IH. reflexivity.
Qed.

(** ** The numeric converters *)

Lemma bytesToNum_nonneg (l : list byte) : 0 <= bytesToNum l.
Proof.
  induction l as [|b l IH]; simpl; [lia|].
  pose proof (byte_to_Z_range b). lia.
Qed.

Lemma bytesToNum_bound (l : list byte) :
  bytesToNum l < 256 ^ Z.of_nat (length l).
Proof.
  induction l as [|b l IH]; [simpl; lia|].
  cbn [bytesToNum length]. rewrite Nat2Z.inj_succ, Z.pow_succ_r by lia.
  pose proof (byte_to_Z_range b). lia.
Qed.

Lemma bytesToNum_app (l1 l2 : list byte) :
  bytesToNum (l1 ++ l2)
  = bytesToNum l1 + 256 ^ Z.of_nat (length l1) * bytesToNum l2.
Proof.
  induction l1 as [|b l1 IH]; [simpl; lia|].
  cbn [bytesToNum length app]. rewrite IH, Nat2Z.inj_succ, Z.pow_succ_r by lia.
  ring.
Qed.

Lemma bytesToNum_zeros (k : nat) : bytesToNum (repeat Byte.x00 k) = 0.
Proof.
  induction k as [|k IH]; simpl; [reflexivity|].
  rewrite IH. reflexivity.
Qed.

Lemma bytesToNum_app_zeros (l : list byte) (k : nat) :
  bytesToNum (l ++ repeat Byte.x00 k) = bytesToNum l.
Proof.
  rewrite bytesToNum_app, bytesToNum_zeros. lia.
Qed.

Lemma rev_repeat {A} (x : A) (k : nat) : rev (repeat x k) = repeat x k.
Proof.
  induction k as [|k IH]; [reflexivity|].
  simpl. rewrite IH. symmetry. apply repeat_cons.
Qed.

Lemma digits256_value (fuel : nat) :
  forall n : N, (n < 256 ^ N.of_nat fuel)%N ->
    bytesToNum (digits256 fuel n) = Z.of_N n.
Proof.
  induction fuel as [|fuel IH]; intros n Hn.
  - simpl in *. lia.
  - cbn [digits256]. destruct (N.eqb_spec n 0) as [->|Hnz]; [reflexivity|].
    cbn [bytesToNum]. rewrite byte_to_of_Z, IH.
    + rewrite N2Z.inj_mod, N2Z.inj_div.
      change (Z.of_N 256) with 256.
      rewrite Z.mod_mod by lia.
      pose proof (Z.div_mod (Z.of_N n) 256 ltac:(lia)). lia.
    + rewrite Nat2N.inj_succ, N.pow_succ_r' in Hn.
      apply N.Div0.div_lt_upper_bound. exact Hn.
Qed.

Lemma digits256_length (fuel : nat) :
  forall (k : nat) (n : N), (n < 256 ^ N.of_nat k)%N ->
    (length (digits256 fuel n) <= k)%nat.
Proof.
  induction fuel as [|fuel IH]; intros k n Hn; [simpl; lia|].
  cbn [digits256]. destruct (N.eqb_spec n 0) as [->|Hnz]; [simpl; lia|].
  destruct k as [|k]; [simpl in Hn; lia|].
  cbn [length]. apply le_n_S, IH.
  rewrite Nat2N.inj_succ, N.pow_succ_r' in Hn.
  apply N.Div0.div_lt_upper_bound. exact Hn.
Qed.

Lemma size_fuel_enough (n : N) : (n < 256 ^ N.of_nat (N.to_nat (N.size n)))%N.
Proof.
  rewrite N2Nat.id.
  apply N.lt_le_trans with (2 ^ N.size n)%N; [apply N.size_gt|].
  apply N.pow_le_mono_l. lia.
Qed.

(** [bytesToNum] undoes [numToBytes] on every number that is not negative:
    the fuel of [digits256] is always enough. *)
Lemma bytesToNum_numToBytes (n : Z) : 0 <= n -> bytesToNum (numToBytes n) = n.
Proof.
  intros Hn. unfold numToBytes.
  rewrite digits256_value by apply size_fuel_enough. lia.
Qed.

Lemma numToBytes_length (n : Z) (k : nat) :
  n < 256 ^ Z.of_nat k -> (length (numToBytes n) <= k)%nat.
Proof.
  intros Hn. unfold numToBytes. apply digits256_length.
  destruct (Z.le_gt_cases 0 n) as [Hpos|Hneg].
  - apply N2Z.inj_lt. rewrite Z2N.id by exact Hpos.
    rewrite N2Z.inj_pow, nat_N_Z. exact Hn.
  - replace (Z.to_N n) with 0%N by lia.
    apply N.neq_0_lt_0, N.pow_nonzero. lia.
Qed.

Lemma numToBytes_nonpositive (n : Z) : n <= 0 -> numToBytes n = [].
Proof.
  intros Hn. unfold numToBytes. replace (Z.to_N n) with 0%N by lia. reflexivity.
Qed.

(** ** Slices *)

Lemma rel_index_range (len k : Z) : 0 <= len -> 0 <= rel_index len k <= len.
Proof.
  intros Hlen. unfold rel_index. destruct (Z.ltb_spec k 0); lia.
Qed.

Lemma rel_index_inside (len k : Z) : 0 <= k <= len -> rel_index len k = k.
Proof.
  intros Hk. unfold rel_index. destruct (Z.ltb_spec k 0); lia.
Qed.

Lemma cut_le (arr : list byte) (k : Z) : (cut arr k <= length arr)%nat.
Proof.
  unfold cut. pose proof (rel_index_range (Z.of_nat (length arr)) k). lia.
Qed.

Lemma cut_inside (arr : list byte) (k : Z) :
  0 <= k <= Z.of_nat (length arr) -> cut arr k = Z.to_nat k.
Proof.
  intros Hk. unfold cut. rewrite rel_index_inside by exact Hk. reflexivity.
Qed.

Lemma js_slice_prefix (arr : list byte) (k : Z) :
  js_slice arr 0 k = firstn (cut arr k) arr.
Proof.
  unfold js_slice, cut.
  pose proof (rel_index_range (Z.of_nat (length arr)) k ltac:(lia)) as Hr.
  replace (rel_index (Z.of_nat (length arr)) 0) with 0
    by (unfold rel_index; simpl; lia).
  simpl skipn. f_equal. lia.
Qed.

Lemma js_slice_from_suffix (arr : list byte) (k : Z) :
  js_slice_from arr k = skipn (cut arr k) arr.
Proof.
  unfold js_slice_from, js_slice, cut.
  set (len := Z.of_nat (length arr)).
  pose proof (rel_index_range len k ltac:(subst len; lia)) as Hr.
  rewrite (rel_index_inside len len) by (subst len; lia).
  apply firstn_all2. rewrite length_skipn. subst len. lia.
Qed.

(** [slice(0, k)] and [slice(k)] split an array, whatever the index. *)
Lemma js_slice_partition (arr : list byte) (k : Z) :
  js_slice arr 0 k ++ js_slice_from arr k = arr.
Proof.
  rewrite js_slice_prefix, js_slice_from_suffix. apply firstn_skipn.
Qed.

(** ** The reader, one call at a time *)

Section Reader.

Variable pad : list byte -> Z -> list byte.

Lemma Stream_new_of (bytes : list byte) : Stream_new pad bytes = Stream_of bytes.
Proof. reflexivity. Qed.

Lemma Stream_of_ok (bytes : list byte) : Stream_ok (Stream_of bytes).
Proof. reflexivity. Qed.

Lemma peek_exceeds (sz : Z) (s : Stream) :
  sz > size s -> peek pad sz s = (Err (SizeExceeded sz (size s)), s).
Proof.
  intros H. unfold peek. destruct (Z.gtb_spec sz (size s)); [reflexivity|lia].
Qed.

Lemma peek_within (sz : Z) (s : Stream) :
  sz <= size s -> peek pad sz s = (Ok (firstn (cut (data s) sz) (data s)), s).
Proof.
  intros H. unfold peek. destruct (Z.gtb_spec sz (size s)); [lia|].
  unfold Buff_new. rewrite js_slice_prefix. reflexivity.
Qed.

Lemma read_sized_exceeds (sz : Z) (s : Stream) :
  sz > size s -> read_sized pad sz s = (Err (SizeExceeded sz (size s)), s).
Proof.
  intros H. unfold read_sized, bind. rewrite peek_exceeds by exact H.
  reflexivity.
Qed.

Lemma read_sized_within (sz : Z) (s : Stream) :
  sz <= size s ->
  read_sized pad sz s
  = (Ok (firstn (cut (data s) sz) (data s)),
     Stream_of (skipn (cut (data s) sz) (data s))).
Proof.
  intros H. unfold read_sized, bind. rewrite peek_within by exact H.
  rewrite js_slice_from_suffix. reflexivity.
Qed.

(** Reading the first [length chunk] bytes of [chunk ++ rest]. *)
Lemma read_sized_app (chunk rest : list byte) :
  read_sized pad (Z.of_nat (length chunk)) (Stream_of (chunk ++ rest))
  = (Ok chunk, Stream_of rest).
Proof.
  rewrite read_sized_within
    by (simpl; rewrite length_app; lia).
  cbn [data Stream_of].
  rewrite cut_inside by (rewrite length_app; lia).
  rewrite Nat2Z.id, firstn_app, skipn_app, Nat.sub_diag.
  rewrite firstn_all, skipn_all. simpl. rewrite app_nil_r. reflexivity.
Qed.

Lemma read_some (sz : Z) (s : Stream) :
  read pad (Some sz) s = read_sized pad sz s.
Proof.
  unfold read, bind, ret. reflexivity.
Qed.

Lemma read_none (s : Stream) :
  read pad None s
  = match readSize pad None s with
    | (Ok n, s1) => read_sized pad n s1
    | (Err e, s1) => (Err e, s1)
    end.
Proof.
  unfold read, bind. reflexivity.
Qed.

End Reader.

(** ** Fixed-width integers *)

Lemma byte_to_Z_inj (a b : byte) : byte_to_Z a = byte_to_Z b -> a = b.
Proof.
  intros H. rewrite <- (byte_of_to_Z a), <- (byte_of_to_Z b), H. reflexivity.
Qed.

Lemma bytesToNum_inj (l1 : list byte) :
  forall l2 : list byte,
    length l1 = length l2 -> bytesToNum l1 = bytesToNum l2 -> l1 = l2.
Proof.
  induction l1 as [|a l1 IH]; intros [|b l2] Hlen Hval; try discriminate.
  - reflexivity.
  - cbn [bytesToNum] in Hval.
    pose proof (byte_to_Z_range a). pose proof (byte_to_Z_range b).
    assert (byte_to_Z a = byte_to_Z b) as Hab by lia.
    f_equal.
    + apply byte_to_Z_inj, Hab.
    + apply IH; [simpl in Hlen; lia | lia].
Qed.

Lemma uint_le_length (width : nat) : forall n, length (uint_le width n) = width.
Proof.
  induction width as [|w IH]; intros n; simpl; [reflexivity|].
  rewrite IH. reflexivity.
Qed.

Lemma uint_bytes_length (e : Endian) (width : nat) (n : Z) :
  length (uint_bytes e width n) = width.
Proof.
  destruct e; simpl; [rewrite length_rev|]; apply uint_le_length.
Qed.

Lemma uint_le_value (width : nat) :
  forall n, bytesToNum (uint_le width n) = n mod 256 ^ Z.of_nat width.
Proof.
  induction width as [|w IH]; intros n.
  - simpl. rewrite Z.mod_1_r. reflexivity.
  - cbn [uint_le bytesToNum]. rewrite byte_to_of_Z, IH.
    rewrite Nat2Z.inj_succ, Z.pow_succ_r by lia.
    rewrite Z.rem_mul_r by lia. reflexivity.
Qed.

(** The digits of a number that fits, zero bytes behind them, are its
    fixed-width little-endian form. *)
Lemma numToBytes_zeros (width : nat) (n : Z) :
  0 <= n < 256 ^ Z.of_nat width ->
  numToBytes n ++ repeat Byte.x00 (width - length (numToBytes n))
  = uint_le width n.
Proof.
  intros Hn.
  pose proof (numToBytes_length n width ltac:(lia)) as Hlen.
  apply bytesToNum_inj.
  - rewrite length_app, repeat_length, uint_le_length. lia.
  - rewrite bytesToNum_app_zeros, bytesToNum_numToBytes by lia.
    rewrite uint_le_value, Z.mod_small by lia. reflexivity.
Qed.

Section Codec.

Variable pad : list byte -> Z -> list byte.

Lemma Buff_of_spread (first : Z) (b : Buff) :
  Buff_of pad (first :: spread b) = byte_of_Z first :: b.
Proof.
  unfold Buff_of, Buff_new, spread. cbn [map].
  rewrite map_byte_of_to_Z. reflexivity.
Qed.

(** [toNum] reads a fixed-width integer back, in either endianness. *)
Lemma toNum_uint_bytes (endian : option Endian) (width : nat) (n : Z) :
  0 <= n < 256 ^ Z.of_nat width ->
  toNum pad (uint_bytes (endian_or_be endian) width n) endian = n.
Proof.
  intros Hn. unfold toNum, Buff_reverse, Buff_new.
  destruct (endian_or_be endian); cbn [uint_bytes].
  - rewrite rev_involutive, uint_le_value, Z.mod_small by lia. reflexivity.
  - rewrite uint_le_value, Z.mod_small by lia. reflexivity.
Qed.

(** [Buff.num] writes a big-endian integer when the padding helper puts
    its zeros in front ... *)
Lemma numToBuff_be (endian : option Endian) (width : nat) (n : Z) :
  pads_zeros_front pad ->
  endian_or_be endian = be ->
  0 <= n < 256 ^ Z.of_nat width ->
  numToBuff pad n (Some (Z.of_nat width)) endian = uint_bytes be width n.
Proof.
  intros Hpad He Hn. unfold numToBuff, Buff_new. rewrite He.
  pose proof (numToBytes_length n width ltac:(lia)) as Hlen.
  rewrite Hpad by (rewrite length_rev; lia).
  cbn [uint_bytes]. rewrite <- (numToBytes_zeros width n Hn).
  rewrite rev_app_distr, rev_repeat, length_rev, Nat2Z.id. reflexivity.
Qed.

(** ... and a little-endian integer when it puts them behind. *)
Lemma numToBuff_le (width : nat) (n : Z) :
  pads_zeros_back pad ->
  0 <= n < 256 ^ Z.of_nat width ->
  numToBuff pad n (Some (Z.of_nat width)) (Some le) = uint_bytes le width n.
Proof.
  intros Hpad Hn. unfold numToBuff, Buff_new. cbn [endian_or_be].
  pose proof (numToBytes_length n width ltac:(lia)) as Hlen.
  rewrite Hpad by lia.
  cbn [uint_bytes]. rewrite <- (numToBytes_zeros width n Hn).
  rewrite Nat2Z.id. reflexivity.
Qed.

(** A single byte comes out the same on both sides. *)
Lemma numToBuff_one_byte (n : Z) :
  pads_zeros_front pad \/ pads_zeros_back pad ->
  0 <= n < 256 ->
  numToBuff pad n (Some 1) None = [byte_of_Z n].
Proof.
  intros Hpad Hn. unfold numToBuff, Buff_new. cbn [endian_or_be].
  pose proof (numToBytes_length n 1 ltac:(simpl; lia)) as Hlen.
  pose proof (numToBytes_zeros 1 n ltac:(simpl; lia)) as Hz.
  cbn [uint_le] in Hz.
  destruct (numToBytes n) as [|b [|c l]] eqn:E; simpl in Hlen; try lia;
    simpl in Hz.
  - destruct Hpad as [Hpad|Hpad]; rewrite Hpad by (simpl; lia); exact Hz.
  - destruct Hpad as [Hpad|Hpad]; rewrite Hpad by (simpl; lia); exact Hz.
Qed.

End Codec.

(** ** The encoder against the table, the decoder against the table *)

Section Varint.

Variable pad : list byte -> Z -> list byte.

(** With zeros in front, [varInt] writes the big-endian column of the
    table; this is the default. *)
Lemma varInt_table_be (n : Z) (endian : option Endian) :
  pads_zeros_front pad ->
  endian_or_be endian = be ->
  0 <= n ->
  varInt pad n endian = varint_table n be.
Proof.
  intros Hpad He Hn. unfold varInt, varint_table.
  destruct (Z.ltb_spec n 0xFD) as [H1|H1].
  { rewrite numToBuff_one_byte by (auto || lia). reflexivity. }
  destruct (Z.ltb_spec n 0x10000) as [H2|H2].
  { rewrite Buff_of_spread.
    change (Some 2) with (Some (Z.of_nat 2)).
    rewrite (numToBuff_be pad endian 2 n Hpad He) by (simpl; lia).
    reflexivity. }
  destruct (Z.ltb_spec n 0x100000000) as [H3|H3].
  { rewrite Buff_of_spread.
    change (Some 4) with (Some (Z.of_nat 4)).
    rewrite (numToBuff_be pad endian 4 n Hpad He) by (simpl; lia).
    reflexivity. }
  change (2 ^ 64) with 0x10000000000000000.
  destruct (Z.ltb_spec n 0x10000000000000000) as [H4|H4]; [|reflexivity].
  rewrite Buff_of_spread.
  change (Some 8) with (Some (Z.of_nat 8)).
  rewrite (numToBuff_be pad endian 8 n Hpad He) by (simpl; lia).
  reflexivity.
Qed.

(** With zeros behind, it writes the little-endian column. *)
Lemma varInt_table_le (n : Z) :
  pads_zeros_back pad ->
  0 <= n ->
  varInt pad n (Some le) = varint_table n le.
Proof.
  intros Hpad Hn. unfold varInt, varint_table.
  destruct (Z.ltb_spec n 0xFD) as [H1|H1].
  { rewrite numToBuff_one_byte by (auto || lia). reflexivity. }
  destruct (Z.ltb_spec n 0x10000) as [H2|H2].
  { rewrite Buff_of_spread.
    change (Some 2) with (Some (Z.of_nat 2)).
    rewrite (numToBuff_le pad 2 n Hpad) by (simpl; lia).
    reflexivity. }
  destruct (Z.ltb_spec n 0x100000000) as [H3|H3].
  { rewrite Buff_of_spread.
    change (Some 4) with (Some (Z.of_nat 4)).
    rewrite (numToBuff_le pad 4 n Hpad) by (simpl; lia).
    reflexivity. }
  change (2 ^ 64) with 0x10000000000000000.
  destruct (Z.ltb_spec n 0x10000000000000000) as [H4|H4]; [|reflexivity].
  rewrite Buff_of_spread.
  change (Some 8) with (Some (Z.of_nat 8)).
  rewrite (numToBuff_le pad 8 n Hpad) by (simpl; lia).
  reflexivity.
Qed.

(** [varInt] throws on a number of 2^64 or more, and only there. *)
Lemma varInt_too_large (n : Z) (endian : option Endian) :
  2 ^ 64 <= n -> varInt pad n endian = Err (ValueTooLarge n).
Proof.
  intros Hn. change (2 ^ 64) with 0x10000000000000000 in Hn. unfold varInt.
  destruct (Z.ltb_spec n 0xFD); [lia|].
  destruct (Z.ltb_spec n 0x10000); [lia|].
  destruct (Z.ltb_spec n 0x100000000); [lia|].
  destruct (Z.ltb_spec n 0x10000000000000000); [lia|reflexivity].
Qed.

Lemma varInt_ok (n : Z) (endian : option Endian) :
  n < 2 ^ 64 -> is_ok (varInt pad n endian) = true.
Proof.
  intros Hn. change (2 ^ 64) with 0x10000000000000000 in Hn. unfold varInt.
  destruct (Z.ltb_spec n 0xFD); [reflexivity|].
  destruct (Z.ltb_spec n 0x10000); [reflexivity|].
  destruct (Z.ltb_spec n 0x100000000); [reflexivity|].
  destruct (Z.ltb_spec n 0x10000000000000000); [reflexivity|lia].
Qed.

(** The first step of [readSize]: one byte is consumed and selects the
    case. *)
Lemma readSize_cons (endian : option Endian) (b : byte) (rest : list byte) :
  readSize pad endian (Stream_of (b :: rest))
  = (let num := byte_to_Z b in
     if (0 <=? num) && (num <? 0xFD) then ret num
     else if num =? 0xFD then
       bind (read_sized pad 2) (fun c => ret (toNum pad c endian))
     else if num =? 0xFE then
       bind (read_sized pad 4) (fun c => ret (toNum pad c endian))
     else if num =? 0xFF then
       bind (read_sized pad 8) (fun c => ret (toNum pad c endian))
     else throw (InvalidPrefix num)) (Stream_of rest).
Proof.
  unfold readSize at 1. unfold bind at 1.
  change (read_sized pad 1 (Stream_of (b :: rest)))
    with (read_sized pad (Z.of_nat (length [b])) (Stream_of ([b] ++ rest))).
  rewrite read_sized_app.
  replace (Buff_num pad [b]) with (byte_to_Z b)
    by (unfold Buff_num, toNum; simpl; lia).
  reflexivity.
Qed.

Lemma read_uint_bytes (e : Endian) (width : nat) (n : Z) (rest : list byte) :
  read_sized pad (Z.of_nat width) (Stream_of (uint_bytes e width n ++ rest))
  = (Ok (uint_bytes e width n), Stream_of rest).
Proof.
  rewrite <- (uint_bytes_length e width n) at 1. apply read_sized_app.
Qed.

(** [readSize] decodes every row of the table, in the endianness it is
    given, and consumes exactly the bytes of the row. *)
Lemma readSize_table (endian : option Endian) (n : Z)
    (bytes rest : list byte) :
  0 <= n ->
  varint_table n (endian_or_be endian) = Ok bytes ->
  readSize pad endian (Stream_of (bytes ++ rest)) = (Ok n, Stream_of rest).
Proof.
  intros Hn. unfold varint_table.
  destruct (Z.ltb_spec n 0xFD) as [H1|H1].
  { intros [= <-]. cbn [app]. rewrite readSize_cons. cbv zeta.
    rewrite byte_to_of_Z, Z.mod_small by lia.
    destruct (Z.leb_spec 0 n); [|lia].
    destruct (Z.ltb_spec n 0xFD); [|lia]. reflexivity. }
  destruct (Z.ltb_spec n 0x10000) as [H2|H2].
  { intros [= <-]. cbn [app]. rewrite readSize_cons. cbn -[read_sized toNum].
    unfold bind. change 2 with (Z.of_nat 2) at 1.
    rewrite read_uint_bytes. unfold ret.
    rewrite toNum_uint_bytes by (simpl; lia). reflexivity. }
  destruct (Z.ltb_spec n 0x100000000) as [H3|H3].
  { intros [= <-]. cbn [app]. rewrite readSize_cons. cbn -[read_sized toNum].
    unfold bind. change 4 with (Z.of_nat 4) at 1.
    rewrite read_uint_bytes. unfold ret.
    rewrite toNum_uint_bytes by (simpl; lia). reflexivity. }
  destruct (Z.ltb_spec n (2 ^ 64)) as [H4|H4]; [|discriminate].
  intros [= <-]. cbn [app]. rewrite readSize_cons. cbn -[read_sized toNum].
  unfold bind. change 8 with (Z.of_nat 8) at 1.
  rewrite read_uint_bytes. unfold ret.
  rewrite toNum_uint_bytes by (simpl; lia). reflexivity.
Qed.

End Varint.

(** ** Hexadecimal strings *)

Lemma hexToBytes_errors (s : string) :
  (forall e, hexToBytes s = Err e -> e = MalformedEncoding) /\
  (forall c e, hexToBytes (String c s) = Err e -> e = MalformedEncoding).
Proof.
  induction s as [|a s [IH1 IH2]].
  - split; [discriminate|]. cbn. intros c e [= <-]. reflexivity.
  - split; [intros e; apply IH2|].
    intros c e. cbn [hexToBytes].
    destruct (hex_value c), (hex_value a), (hexToBytes s) as [bytes|e'];
      intros [= <-]; reflexivity.
Qed.

(** The only failure of the hex decoder is MalformedEncoding. *)
Lemma hexToBytes_error (s : string) (e : Error) :
  hexToBytes s = Err e -> e = MalformedEncoding.
Proof.
  apply hexToBytes_errors.
Qed.

(** ** The model of the padding helper *)

Lemma pad_array_model_length (p : PadPolicy) (bytes : list byte) (n : Z) :
  length (pad_array_model p bytes n) = Z.to_nat n.
Proof.
  unfold pad_array_model.
  destruct (Nat.leb_spec (length bytes) (Z.to_nat n)) as [Hle|Hgt].
  - destruct (zeros_side p); rewrite length_app, repeat_length; lia.
  - destruct (kept_side p); [rewrite length_firstn|rewrite length_skipn]; lia.
Qed.

Lemma pad_array_model_to_size (p : PadPolicy) : pads_to_size (pad_array_model p).
Proof.
  intros bytes n _. apply pad_array_model_length.
Qed.

Lemma pad_left_zeros_front : pads_zeros_front (pad_array_model pad_left).
Proof.
  intros bytes n Hn. unfold pad_array_model.
  destruct (Nat.leb_spec (length bytes) (Z.to_nat n)); [reflexivity|lia].
Qed.

Lemma pad_right_zeros_back : pads_zeros_back (pad_array_model pad_right).
Proof.
  intros bytes n Hn. unfold pad_array_model.
  destruct (Nat.leb_spec (length bytes) (Z.to_nat n)); [reflexivity|lia].
Qed.

(** ** Round trips that hold *)

Section RoundTrip.

Variable pad : list byte -> Z -> list byte.

(** Big-endian, the default: every number below 2^64 survives the round
    trip when the padding helper puts its zeros in front. *)
Lemma round_trip_be (n : Z) (endian : option Endian) :
  pads_zeros_front pad ->
  endian_or_be endian = be ->
  0 <= n < 2 ^ 64 ->
  round_trip pad n endian.
Proof.
  intros Hpad He Hn. unfold round_trip.
  pose proof (varInt_ok pad n endian ltac:(lia)) as Hok.
  destruct (varInt pad n endian) as [bytes|] eqn:E; [|discriminate].
  exists bytes. split; [reflexivity|].
  rewrite varInt_table_be in E by (auto || lia).
  rewrite Stream_new_of, <- (app_nil_r bytes).
  apply readSize_table; [lia | rewrite He; exact E].
Qed.

(** Little-endian: the same when the helper puts its zeros behind. *)
Lemma round_trip_le (n : Z) :
  pads_zeros_back pad ->
  0 <= n < 2 ^ 64 ->
  round_trip pad n (Some le).
Proof.
  intros Hpad Hn. unfold round_trip.
  pose proof (varInt_ok pad n (Some le) ltac:(lia)) as Hok.
  destruct (varInt pad n (Some le)) as [bytes|] eqn:E; [|discriminate].
  exists bytes. split; [reflexivity|].
  rewrite varInt_table_le in E by (auto || lia).
  rewrite Stream_new_of, <- (app_nil_r bytes).
  apply readSize_table; [lia | exact E].
Qed.

(** The encoder forgets the endianness at 0xFD: the one digit of the
    number is its own reverse, and the padding helper is not told which
    order was asked for. *)
Lemma varInt_0xFD (e : Endian) :
  varInt pad 0xFD (Some e) = Ok (Byte.xfd :: pad [Byte.xfd] 2).
Proof.
  unfold varInt. cbn -[Buff_of spread numToBuff].
  rewrite Buff_of_spread. destruct e; reflexivity.
Qed.

(** What the decoder makes of the byte 0xFD followed by [x]. *)
Lemma readSize_0xFD (endian : option Endian) (x : list byte) :
  readSize pad endian (Stream_of (Byte.xfd :: x))
  = match x with
    | a :: b :: rest => (Ok (toNum pad [a; b] endian), Stream_of rest)
    | _ => (Err (SizeExceeded 2 (Z.of_nat (length x))), Stream_of x)
    end.
Proof.
  rewrite readSize_cons. cbn -[read_sized toNum]. unfold bind.
  destruct x as [|a [|b rest]].
  - reflexivity.
  - reflexivity.
  - change (read_sized pad 2 (Stream_of (a :: b :: rest)))
      with (read_sized pad (Z.of_nat (length [a; b]))
              (Stream_of ([a; b] ++ rest))).
    rewrite read_sized_app. reflexivity.
Qed.

End RoundTrip.

(** ** The object level *)

Lemma alloc_fresh (h : Obj.store) (bytes : list byte) :
  h !! (Obj.alloc h bytes).1 = None.
Proof.
  unfold Obj.alloc. cbn. apply not_elem_of_dom, is_fresh.
Qed.

Lemma alloc_lookup (h : Obj.store) (bytes : list byte) :
  (Obj.alloc h bytes).2 !! (Obj.alloc h bytes).1 = Some bytes.
Proof.
  unfold Obj.alloc. cbn. apply lookup_insert_eq.
Qed.

Lemma alloc_extends (h : Obj.store) (bytes : list byte) :
  h ⊆ (Obj.alloc h bytes).2.
Proof.
  unfold Obj.alloc. cbn. apply insert_subseteq, not_elem_of_dom, is_fresh.
Qed.

(** A copy: a new location with the same contents, the store otherwise as
    it was. *)
Lemma Uint8Array_new_spec (h : Obj.store) (src : Obj.ref) (bytes : list byte) :
  h !! src = Some bytes ->
  exists (r : Obj.ref) (h' : Obj.store),
    Obj.Uint8Array_new h src = Some (r, h') /\
    h' !! r = Some bytes /\ h !! r = None /\ h ⊆ h'.
Proof.
  intros Hsrc. unfold Obj.Uint8Array_new. rewrite Hsrc. cbn.
  exists (Obj.alloc h bytes).1, (Obj.alloc h bytes).2.
  split; [destruct (Obj.alloc h bytes); reflexivity|].
  split; [apply alloc_lookup|]. split; [apply alloc_fresh|apply alloc_extends].
Qed.

Lemma Uint8Array_slice_spec (h : Obj.store) (arr : Obj.ref) (bytes : list byte)
    (start end_ : Z) :
  h !! arr = Some bytes ->
  exists (r : Obj.ref) (h' : Obj.store),
    Obj.Uint8Array_slice h arr start end_ = Some (r, h') /\
    h' !! r = Some (js_slice bytes start end_) /\ h !! r = None /\ h ⊆ h'.
Proof.
  intros Harr. unfold Obj.Uint8Array_slice. rewrite Harr. cbn.
  set (v := js_slice bytes start end_).
  exists (Obj.alloc h v).1, (Obj.alloc h v).2.
  split; [destruct (Obj.alloc h v); reflexivity|].
  split; [apply alloc_lookup|]. split; [apply alloc_fresh|apply alloc_extends].
Qed.

(** [reverse ()] at the object level: the result is a new array holding the
    reversed bytes, and no array that existed before has changed. *)
Lemma Buff_reverse_obj (h : Obj.store) (this : Obj.ref) (bytes : list byte) :
  h !! this = Some bytes ->
  exists (r : Obj.ref) (h' : Obj.store),
    Obj.Buff_reverse h this = Some (r, h') /\
    h' !! r = Some (rev bytes) /\ h !! r = None /\ h ⊆ h'.
Proof.
  intros Hthis. unfold Obj.Buff_reverse.
  destruct (Uint8Array_new_spec h this bytes Hthis)
    as (c & h1 & -> & Hc & Hfresh & Hsub1).
  cbn. unfold Obj.Uint8Array_reverse. rewrite Hc. cbn.
  set (h2 := <[c := rev bytes]> h1).
  assert (h2 !! c = Some (rev bytes)) as Hc2 by apply lookup_insert_eq.
  assert (h ⊆ h2) as Hsub2.
  { apply map_subseteq_spec. intros l x Hl. unfold h2.
    rewrite lookup_insert_ne by (intros ->; congruence).
    exact (lookup_weaken _ _ _ _ Hl Hsub1). }
  destruct (Uint8Array_new_spec h2 c (rev bytes) Hc2)
    as (r & h3 & Hnew & Hr & Hfresh3 & Hsub3).
  exists r, h3. unfold Obj.Buff_new. rewrite Hnew.
  split; [reflexivity|]. split; [exact Hr|]. split.
  - destruct (h !! r) as [x|] eqn:E; [|reflexivity].
    apply (lookup_weaken _ _ _ _ E) in Hsub2. congruence.
  - etransitivity; eassumption.
Qed.

Lemma peek_obj_total (sz : Z) (h : Obj.store) (s : Obj.Stream) (bytes : list byte) :
  h !! Obj.data s = Some bytes ->
  exists (res : result Obj.ref) (h' : Obj.store),
    Obj.peek sz h s = Some (res, h', s) /\ h ⊆ h' /\
    match res with
    | Ok r =>
        sz <= Obj.size s /\
        h' !! r = Some (js_slice bytes 0 sz) /\ h !! r = None
    | Err e => e = SizeExceeded sz (Obj.size s) /\ sz > Obj.size s /\ h' = h
    end.
Proof.
  intros Hdata. unfold Obj.peek.
  destruct (Z.gtb_spec sz (Obj.size s)) as [Hgt|Hle].
  - exists (Err (SizeExceeded sz (Obj.size s))), h.
    split; [reflexivity|]. split; [reflexivity|]. repeat split. lia.
  - destruct (Uint8Array_slice_spec h (Obj.data s) bytes 0 sz Hdata)
      as (sl & h1 & -> & Hsl & Hfresh1 & Hsub1).
    cbn. unfold Obj.Buff_new.
    destruct (Uint8Array_new_spec h1 sl _ Hsl)
      as (r & h2 & -> & Hr & Hfresh2 & Hsub2).
    cbn. exists (Ok r), h2.
    split; [reflexivity|]. split; [etransitivity; eassumption|].
    split; [lia|]. split; [exact Hr|].
    destruct (h !! r) as [x|] eqn:E; [|reflexivity].
    apply (lookup_weaken _ _ _ _ E) in Hsub1. congruence.
Qed.

Lemma peeks_obj (sizes : list Z) :
  forall (h : Obj.store) (s : Obj.Stream) (bytes : list byte),
    h !! Obj.data s = Some bytes ->
    exists h' : Obj.store, Obj.peeks sizes h s = Some (h', s) /\ h ⊆ h'.
Proof.
  induction sizes as [|sz sizes IH]; intros h s bytes Hdata.
  - exists h. split; reflexivity.
  - destruct (peek_obj_total sz h s bytes Hdata)
      as (res & h1 & Hpeek & Hsub1 & _).
    cbn [Obj.peeks]. rewrite Hpeek. cbn.
    destruct (IH h1 s bytes (lookup_weaken _ _ _ _ Hdata Hsub1))
      as (h2 & Hrun & Hsub2).
    exists h2. split; [exact Hrun|]. etransitivity; eassumption.
Qed.

(** ** The reader over several calls *)

Section Reads.

Variable pad : list byte -> Z -> list byte.

(** A call of [read (size)] either throws SizeExceeded and leaves the
    state, or returns. *)
Lemma read_sized_cases (sz : Z) (s : Stream) :
  (sz > size s /\
   read_sized pad sz s = (Err (SizeExceeded sz (size s)), s)) \/
  (sz <= size s /\
   read_sized pad sz s
   = (Ok (firstn (cut (data s) sz) (data s)),
      Stream_of (skipn (cut (data s) sz) (data s)))).
Proof.
  destruct (Z.le_gt_cases sz (size s)) as [Hle|Hgt].
  - right. split; [exact Hle|]. apply read_sized_within, Hle.
  - left. split; [lia|]. apply read_sized_exceeds. lia.
Qed.

(** What a successful [read (size)] does, whatever the sign of the size:
    it splits the remaining bytes into the chunk and the rest. *)
Lemma read_sized_ok (sz : Z) (s s' : Stream) (chunk : Buff) :
  read_sized pad sz s = (Ok chunk, s') ->
  sz <= size s /\
  data s = chunk ++ data s' /\
  s' = Stream_of (data s') /\
  length chunk = cut (data s) sz.
Proof.
  intros H. destruct (read_sized_cases sz s) as [[_ E]|[Hle E]];
    rewrite E in H; [discriminate|].
  injection H as <- <-. cbn [data Stream_of].
  split; [exact Hle|]. split; [symmetry; apply firstn_skipn|].
  split; [reflexivity|].
  rewrite length_firstn. pose proof (cut_le (data s) sz). lia.
Qed.

(** With a size that is not negative, the chunk has exactly that many
    bytes. *)
Lemma read_sized_ok_length (sz : Z) (s s' : Stream) (chunk : Buff) :
  Stream_ok s -> 0 <= sz ->
  read_sized pad sz s = (Ok chunk, s') ->
  Z.of_nat (length chunk) = sz.
Proof.
  intros Hok Hsz H. apply read_sized_ok in H as (Hle & _ & _ & ->).
  unfold Stream_ok in Hok. rewrite cut_inside by lia. lia.
Qed.

Lemma read_sized_keeps_ok (sz : Z) (s : Stream) :
  Stream_ok s -> Stream_ok (snd (read_sized pad sz s)).
Proof.
  intros Hok. destruct (read_sized_cases sz s) as [[_ E]|[_ E]];
    rewrite E; [exact Hok|apply Stream_of_ok].
Qed.

Lemma bind_keeps_ok {A B} (m : M A) (k : A -> M B) (s : Stream) :
  Stream_ok (snd (m s)) ->
  (forall a s', Stream_ok s' -> Stream_ok (snd (k a s'))) ->
  Stream_ok (snd (bind m k s)).
Proof.
  intros Hm Hk. unfold bind. destruct (m s) as [[a|e] s']; cbn in *.
  - apply Hk, Hm.
  - exact Hm.
Qed.

Lemma readSize_keeps_ok (endian : option Endian) (s : Stream) :
  Stream_ok s -> Stream_ok (snd (readSize pad endian s)).
Proof.
  intros Hok. unfold readSize.
  apply bind_keeps_ok; [apply read_sized_keeps_ok, Hok|].
  intros first s1 H1.
  repeat match goal with
         | |- context [if ?c then _ else _] => destruct c
         end;
    try exact H1;
    apply bind_keeps_ok; auto using read_sized_keeps_ok.
Qed.

Lemma read_keeps_ok (sz : option Z) (s : Stream) :
  Stream_ok s -> Stream_ok (snd (read pad sz s)).
Proof.
  intros Hok. unfold read. apply bind_keeps_ok.
  - destruct sz; [exact Hok|apply readSize_keeps_ok, Hok].
  - intros n s' H'. apply read_sized_keeps_ok, H'.
Qed.

(** Reads whose sizes are not negative and add up to the length of the
    stream partition it. *)
Lemma reads_partition (sizes : list Z) :
  forall bytes : list byte,
    Forall (fun sz => 0 <= sz) sizes ->
    fold_right Z.add 0 sizes = Z.of_nat (length bytes) ->
    exists chunks : list Buff,
      reads pad sizes (Stream_of bytes) = (Ok chunks, Stream_of []) /\
      concat chunks = bytes /\
      map (fun c => Z.of_nat (length c)) chunks = sizes.
Proof.
  induction sizes as [|sz sizes IH]; intros bytes Hpos Hsum.
  - cbn in Hsum. destruct bytes; [|cbn in Hsum; lia].
    exists []. repeat split.
  - apply Forall_cons_iff in Hpos as [Hsz Hpos]. cbn in Hsum.
    assert (0 <= fold_right Z.add 0 sizes) as Hrest.
    { clear -Hpos. induction Hpos; cbn; lia. }
    set (n := Z.to_nat sz).
    assert (length (firstn n bytes) = n) as Hlen
      by (rewrite length_firstn; lia).
    destruct (IH (skipn n bytes) Hpos) as (chunks & Hrun & Hcat & Hmap).
    { rewrite length_skipn. lia. }
    exists (firstn n bytes :: chunks).
    cbn [reads]. unfold bind at 1. rewrite read_some.
    rewrite <- (firstn_skipn n bytes) at 1.
    replace sz with (Z.of_nat (length (firstn n bytes))) at 1 by lia.
    rewrite read_sized_app. unfold bind. rewrite Hrun.
    split; [reflexivity|]. split.
    + cbn. rewrite Hcat. apply firstn_skipn.
    + cbn. rewrite Hmap. f_equal. lia.
Qed.

End Reads.

(** ** What [readSize] consumes *)

Section ReadSize.

Variable pad : list byte -> Z -> list byte.

Lemma toNum_nonneg (b : Buff) (endian : option Endian) : 0 <= toNum pad b endian.
Proof.
  unfold toNum. apply bytesToNum_nonneg.
Qed.

(** The number of the first byte of a stream is a byte value. *)
Lemma Buff_num_one_byte (b : Buff) :
  (length b <= 1)%nat -> 0 <= Buff_num pad b < 256.
Proof.
  intros Hlen. unfold Buff_num, toNum, Buff_reverse, Buff_new. cbn.
  split; [apply bytesToNum_nonneg|].
  pose proof (bytesToNum_bound (rev b)) as Hb. rewrite length_rev in Hb.
  destruct b as [|x [|y b]]; cbn in *; lia.
Qed.

(** The continuation of the three long cases: [this.read(w).toNum(endian)]. *)
Lemma read_toNum_ok (w : Z) (endian : option Endian) (s0 s1 : Stream) (n : Z) :
  Stream_ok s0 -> 0 <= w ->
  bind (read_sized pad w) (fun c => ret (toNum pad c endian)) s0 = (Ok n, s1) ->
  exists c : Buff,
    data s0 = c ++ data s1 /\ s1 = Stream_of (data s1) /\
    Z.of_nat (length c) = w /\ n = toNum pad c endian.
Proof.
  intros Hok Hw. unfold bind, ret.
  destruct (read_sized pad w s0) as [[c|e] s'] eqn:E; [|discriminate].
  intros [= <- <-]. exists c.
  pose proof (read_sized_ok_length pad w s0 s' c Hok Hw E) as Hlen.
  apply read_sized_ok in E as (_ & Hsplit & Hof & _). auto.
Qed.

(** A successful [readSize] has consumed a prefix of 1, 3, 5 or 9 bytes
    and returns a number that is not negative. *)
Lemma readSize_ok (endian : option Endian) (s s1 : Stream) (n : Z) :
  Stream_ok s ->
  readSize pad endian s = (Ok n, s1) ->
  exists prefix : list byte,
    data s = prefix ++ data s1 /\ s1 = Stream_of (data s1) /\ 0 <= n /\
    In (length prefix) [1; 3; 5; 9]%nat.
Proof.
  intros Hok. unfold readSize. unfold bind at 1.
  destruct (read_sized pad 1 s) as [[first|e] s0] eqn:E1; [|discriminate].
  pose proof (read_sized_ok_length pad 1 s s0 first Hok ltac:(lia) E1) as Hlen.
  apply read_sized_ok in E1 as (_ & Hsplit & Hof & _).
  assert (Stream_ok s0) as Hok0 by (rewrite Hof; apply Stream_of_ok).
  cbv zeta.
  destruct ((0 <=? Buff_num pad first) && (Buff_num pad first <? 0xFD))
    eqn:Hdirect.
  { apply andb_prop in Hdirect as [Hge _]. apply Z.leb_le in Hge.
    intros [= <- <-]. exists first. cbn. intuition lia. }
  repeat case_match; try discriminate;
    intros Hrun; apply read_toNum_ok in Hrun as (c & Hc & Hof1 & Hlenc & ->);
    try lia; try exact Hok0;
    (exists (first ++ c); rewrite <- app_assoc, <- Hc;
     split; [exact Hsplit|]; split; [exact Hof1|];
     split; [apply toNum_nonneg|];
     rewrite length_app; cbn; intuition lia).
Qed.

(** No byte value reaches the [default] case of [readSize]. *)
Lemma readSize_not_InvalidPrefix (endian : option Endian) (s : Stream) (num : Z) :
  fst (readSize pad endian s) <> Err (InvalidPrefix num).
Proof.
  unfold readSize. unfold bind at 1.
  destruct (read_sized_cases pad 1 s) as [[_ ->]|[_ ->]]; [discriminate|].
  set (first := firstn (cut (data s) 1) (data s)).
  assert (0 <= Buff_num pad first < 256) as Hnum.
  { apply Buff_num_one_byte. unfold first. rewrite length_firstn.
    unfold cut, rel_index. cbn. lia. }
  cbv zeta.
  destruct (Z.leb_spec 0 (Buff_num pad first)); [|lia].
  destruct (Z.ltb_spec (Buff_num pad first) 0xFD); cbn [andb];
    [discriminate|].
  destruct (Z.eqb_spec (Buff_num pad first) 0xFD).
  { unfold bind. destruct (read_sized_cases pad 2 (Stream_of (skipn (cut (data s) 1) (data s))))
      as [[_ ->]|[_ ->]]; discriminate. }
  destruct (Z.eqb_spec (Buff_num pad first) 0xFE).
  { unfold bind. destruct (read_sized_cases pad 4 (Stream_of (skipn (cut (data s) 1) (data s))))
      as [[_ ->]|[_ ->]]; discriminate. }
  destruct (Z.eqb_spec (Buff_num pad first) 0xFF).
  { unfold bind. destruct (read_sized_cases pad 8 (Stream_of (skipn (cut (data s) 1) (data s))))
      as [[_ ->]|[_ ->]]; discriminate. }
  lia.
Qed.

End ReadSize.

(** ** Length-prefixed fields *)

Section Prefixed.

Variable pad : list byte -> Z -> list byte.

(** [peek] never changes the state. *)
Lemma peek_state (sz : Z) (s : Stream) : snd (peek pad sz s) = s.
Proof.
  unfold peek. destruct (sz >? size s); reflexivity.
Qed.

Lemma peeks_state (sizes : list Z) : forall s, peeks pad sizes s = s.
Proof.
  induction sizes as [|sz sizes IH]; intros s; cbn [peeks]; [reflexivity|].
  rewrite peek_state. apply IH.
Qed.

(** [read ()] takes back what [prefixSize] wrote in front of a payload,
    with the default endianness on both sides. *)
Lemma read_none_prefixSize (payload rest : list byte) :
  pads_zeros_front pad ->
  Z.of_nat (length payload) < 2 ^ 64 ->
  exists bytes : Buff,
    prefixSize pad payload None = Ok bytes /\
    read pad None (Stream_new pad (bytes ++ rest))
    = (Ok payload, Stream_of rest).
Proof.
  intros Hpad Hlen. unfold prefixSize.
  pose proof (varInt_ok pad (Z.of_nat (length payload)) None Hlen) as Hok.
  destruct (varInt pad (Z.of_nat (length payload)) None) as [prefix|] eqn:E;
    [|discriminate].
  exists (prefix ++ payload).
  split; [unfold Buff_join, join_array; cbn; rewrite app_nil_r; reflexivity|].
  rewrite varInt_table_be in E by (auto || lia).
  rewrite Stream_new_of, read_none, <- app_assoc.
  rewrite (readSize_table pad None (Z.of_nat (length payload)) prefix
             (payload ++ rest)) by (lia || exact E).
  apply read_sized_app.
Qed.

End Prefixed.

(** * The statements of the specification *)

(** ** Varint codec *)

(** C1 (fails on the code).  The claim: for every n below 2^64 and every
    endianness, [readSize] over the bytes of [varInt (n, e)] gives n back and
    consumes them all.  The code: at n = 0xFD no padding helper whatsoever
    makes the round trip succeed in both endiannesses, because [numToBuff]
    hands the helper the same one-byte array in both cases.  With the helper
    that puts zeros in front (the one with which the default, big-endian,
    round trip holds, [round_trip_be]) the little-endian encoding of 0xFD is
    fd 00 fd and decodes to 0xFD00. *)
Theorem varInt_round_trip_lost_at_0xFD :
  (forall pad : list byte -> Z -> list byte,
      ~ (round_trip pad 0xFD (Some be) /\ round_trip pad 0xFD (Some le))) /\
  (let pad := pad_array_model pad_left in
   varInt pad 0xFD (Some le) = Ok [Byte.xfd; Byte.x00; Byte.xfd] /\
   readSize pad (Some le) (Stream_new pad [Byte.xfd; Byte.x00; Byte.xfd])
   = (Ok 0xFD00, Stream_of [])).
Proof.
  split; [|split; reflexivity].
  intros pad [(b1 & E1 & R1) (b2 & E2 & R2)].
  rewrite varInt_0xFD in E1, E2. injection E1 as <-. injection E2 as <-.
  rewrite Stream_new_of, readSize_0xFD in R1, R2.
  destruct (pad [Byte.xfd] 2) as [|a [|b rest]]; try discriminate.
  injection R1 as R1 _. injection R2 as R2 _.
  unfold toNum, Buff_reverse, Buff_new in R1, R2. cbn in R1, R2.
  pose proof (byte_to_Z_range a). pose proof (byte_to_Z_range b). lia.
Qed.

(** C2 (fails on the code).  The claim: [varInt] writes each multi-byte
    integer of the table in the requested endianness.  The code: at 0xFD the
    bytes written for 'be' and for 'le' are the same, whatever the padding
    helper does, while the two columns of the table differ; with zeros in
    front the little-endian request yields fd 00 fd, the table says
    fd fd 00. *)
Theorem varInt_endianness_lost_at_0xFD :
  (forall pad : list byte -> Z -> list byte,
      varInt pad 0xFD (Some le) = varInt pad 0xFD (Some be) /\
      ~ (varInt pad 0xFD (Some be) = varint_table 0xFD be /\
         varInt pad 0xFD (Some le) = varint_table 0xFD le)) /\
  (let pad := pad_array_model pad_left in
   varInt pad 0xFD (Some le) = Ok [Byte.xfd; Byte.x00; Byte.xfd] /\
   varint_table 0xFD le = Ok [Byte.xfd; Byte.xfd; Byte.x00]).
Proof.
  split; [|split; reflexivity].
  intros pad. rewrite !varInt_0xFD. split; [reflexivity|].
  intros [Hbe Hle]. rewrite Hbe in Hle. discriminate Hle.
Qed.

(** C3.  [readSize] never reaches its [default] case: every value of the
    first byte falls in one of the four cases, and no run of [readSize], on
    any stream and with any endianness, throws the out-of-range error. *)
Theorem readSize_default_unreachable :
  (forall b : byte,
      0 <= byte_to_Z b < 0xFD \/
      byte_to_Z b = 0xFD \/ byte_to_Z b = 0xFE \/ byte_to_Z b = 0xFF) /\
  (forall (pad : list byte -> Z -> list byte) (endian : option Endian)
          (s : Stream) (num : Z),
      fst (readSize pad endian s) <> Err (InvalidPrefix num)).
Proof.
  split.
  - intros b. pose proof (byte_to_Z_range b). lia.
  - intros pad endian s num. apply readSize_not_InvalidPrefix.
Qed.

(** ** The reader *)

(** C4.  [peek (size)] and [read (size)] throw, and then throw
    SizeExceeded, exactly when the size exceeds the remaining length of the
    stream; [peek] never changes the stream, and [read] leaves it as it was
    when it throws.  This holds for every state of the stream and every
    integer size. *)
Theorem peek_read_SizeExceeded
    (pad : list byte -> Z -> list byte) (s : Stream) (sz : Z) :
  (is_ok (fst (peek pad sz s)) = false <-> sz > size s) /\
  (fst (peek pad sz s) = Err (SizeExceeded sz (size s)) <-> sz > size s) /\
  (is_ok (fst (read pad (Some sz) s)) = false <-> sz > size s) /\
  (fst (read pad (Some sz) s) = Err (SizeExceeded sz (size s)) <-> sz > size s) /\
  snd (peek pad sz s) = s /\
  snd (read pad (Some sz) s)
  = (if sz >? size s then s
     else Stream_of (skipn (cut (data s) sz) (data s))).
Proof.
  rewrite read_some. destruct (Z.gtb_spec sz (size s)) as [Hgt|Hle].
  - rewrite peek_exceeds, read_sized_exceeds by lia. cbn.
    repeat split; intros; (reflexivity || lia).
  - rewrite peek_within, read_sized_within by lia. cbn.
    repeat split; intros; (reflexivity || discriminate || lia).
Qed.

(** C5, as stated, fails at a negative size: on a stream of the bytes
    01 02 03 the size -1 does not exceed the remaining length, and
    [peek (-1)] returns the two bytes 01 02 ([slice (0, -1)] counts from the
    end), which are not "the first -1 bytes". *)
Lemma peek_negative_size :
  let pad := pad_array_model pad_left in
  let s := Stream_new pad [Byte.x01; Byte.x02; Byte.x03] in
  -1 <= size s /\
  peek pad (-1) s = (Ok [Byte.x01; Byte.x02], s) /\
  Z.of_nat (length [Byte.x01; Byte.x02]) <> -1 /\
  [Byte.x01; Byte.x02] <> firstn (Z.to_nat (-1)) (data s).
Proof.
  cbn. repeat split; (lia || discriminate).
Qed.

(** C5, amended.  For a size between 0 and the remaining length, [peek]
    returns a new array (a location that did not exist before) holding
    exactly the first [size] remaining bytes; the stream object is returned
    as it was and the array of its remaining bytes is unchanged.  Any run of
    [peek] calls, with any sizes, leaves the stream object and its remaining
    bytes unchanged.  The same on values: [peek] returns the prefix and the
    state it was given. *)
Theorem peek_new_prefix
    (pad : list byte -> Z -> list byte)
    (h : Obj.store) (s : Obj.Stream) (bytes : list byte)
    (sz : Z) (sizes : list Z) :
  h !! Obj.data s = Some bytes ->
  Obj.size s = Z.of_nat (length bytes) ->
  0 <= sz <= Obj.size s ->
  (exists (r : Obj.ref) (h' : Obj.store),
      Obj.peek sz h s = Some (Ok r, h', s) /\
      h' !! r = Some (firstn (Z.to_nat sz) bytes) /\
      h !! r = None /\
      h' !! Obj.data s = Some bytes) /\
  (exists h' : Obj.store,
      Obj.peeks sizes h s = Some (h', s) /\
      h' !! Obj.data s = Some bytes) /\
  peek pad sz (Stream_of bytes)
  = (Ok (firstn (Z.to_nat sz) bytes), Stream_of bytes) /\
  peeks pad sizes (Stream_of bytes) = Stream_of bytes.
Proof.
  intros Hdata Hsize Hsz. split; [|split; [|split]].
  - destruct (peek_obj_total sz h s bytes Hdata)
      as ([r|e] & h' & Hpeek & Hsub & Hres).
    + destruct Hres as (_ & Hr & Hfresh). exists r, h'.
      split; [exact Hpeek|]. split.
      * rewrite Hr, js_slice_prefix, cut_inside by lia. reflexivity.
      * split; [exact Hfresh|]. exact (lookup_weaken _ _ _ _ Hdata Hsub).
    + destruct Hres as (_ & Hgt & _). lia.
  - destruct (peeks_obj sizes h s bytes Hdata) as (h' & Hrun & Hsub).
    exists h'. split; [exact Hrun|]. exact (lookup_weaken _ _ _ _ Hdata Hsub).
  - rewrite peek_within by (cbn; lia). cbn [data Stream_of].
    rewrite cut_inside by lia. reflexivity.
  - apply peeks_state.
Qed.

Lemma peek_new_prefix_witness :
  let pad := pad_array_model pad_left in
  let bytes := [Byte.x01; Byte.x02; Byte.x03] in
  let h : Obj.store := {[ 1%positive := bytes ]} in
  let s := {| Obj.size := 3; Obj.data := 1%positive |} in
  (exists (r : Obj.ref) (h' : Obj.store),
      Obj.peek 2 h s = Some (Ok r, h', s) /\
      h' !! r = Some [Byte.x01; Byte.x02] /\
      h !! r = None /\
      h' !! Obj.data s = Some bytes) /\
  (exists h' : Obj.store,
      Obj.peeks [2; 7; -1] h s = Some (h', s) /\
      h' !! Obj.data s = Some bytes) /\
  peek pad 2 (Stream_of bytes) = (Ok [Byte.x01; Byte.x02], Stream_of bytes) /\
  peeks pad [2; 7; -1] (Stream_of bytes) = Stream_of bytes.
Proof.
  intros pad bytes h s.
  apply (peek_new_prefix pad h s bytes 2 [2; 7; -1]).
  - reflexivity.
  - reflexivity.
  - cbn. lia.
Defined.

(** C6, as stated, fails at a negative size: [read (-1)] on a stream of the
    bytes 01 02 03 succeeds, returns 01 02 and leaves one byte, so the
    remaining length went down by two and not "by exactly size". *)
Lemma read_negative_size :
  let pad := pad_array_model pad_left in
  let s := Stream_new pad [Byte.x01; Byte.x02; Byte.x03] in
  read pad (Some (-1)) s = (Ok [Byte.x01; Byte.x02], Stream_of [Byte.x03]) /\
  size (Stream_of [Byte.x03]) <> size s - (-1).
Proof.
  cbn. split; [reflexivity|lia].
Qed.

(** C6, amended.  The remaining length is the length of the remaining
    bytes after construction and after every [peek], [read] and [readSize],
    whether it returns or throws.  A [read (size)] that returns, with a size
    that is not negative, takes exactly [size] bytes from the front: the
    remaining length goes down by [size] and the chunk followed by what
    remains is what remained before; a [read] that throws changes nothing.
    Reads whose sizes are not negative and add up to the original length
    all return, their chunks are in order the original bytes, and the
    remaining length ends at 0. *)
Theorem Stream_invariant_and_partition
    (pad : list byte -> Z -> list byte)
    (bytes : list byte) (s : Stream)
    (psz : Z) (osz : option Z) (endian : option Endian)
    (sz : Z) (sizes : list Z) :
  Stream_ok s ->
  0 <= sz ->
  Forall (fun n => 0 <= n) sizes ->
  fold_right Z.add 0 sizes = Z.of_nat (length bytes) ->
  Stream_ok (Stream_new pad bytes) /\
  Stream_ok (snd (peek pad psz s)) /\
  Stream_ok (snd (read pad osz s)) /\
  Stream_ok (snd (readSize pad endian s)) /\
  match read pad (Some sz) s with
  | (Ok chunk, s') =>
      size s' = size s - sz /\
      Z.of_nat (length chunk) = sz /\
      data s = chunk ++ data s'
  | (Err e, s') => sz > size s /\ s' = s
  end /\
  exists chunks : list Buff,
    reads pad sizes (Stream_new pad bytes) = (Ok chunks, Stream_of []) /\
    size (Stream_of []) = 0 /\
    concat chunks = bytes /\
    map (fun c => Z.of_nat (length c)) chunks = sizes.
Proof.
  intros Hok Hsz Hpos Hsum.
  split; [apply Stream_of_ok|].
  split; [rewrite peek_state; exact Hok|].
  split; [apply read_keeps_ok, Hok|].
  split; [apply readSize_keeps_ok, Hok|].
  split.
  - rewrite read_some.
    destruct (read_sized pad sz s) as [[chunk|e] s'] eqn:E.
    + pose proof (read_sized_ok_length pad sz s s' chunk Hok Hsz E) as Hlen.
      apply read_sized_ok in E as (_ & Hsplit & Hof & _).
      split; [|split; [exact Hlen|exact Hsplit]].
      rewrite Hof. cbn [size Stream_of]. unfold Stream_ok in Hok.
      rewrite Hok, Hsplit, length_app. lia.
    + destruct (read_sized_cases pad sz s) as [[Hgt E']|[_ E']];
        rewrite E' in E; [|discriminate].
      injection E as _ <-. split; [exact Hgt|reflexivity].
  - destruct (reads_partition pad sizes bytes Hpos Hsum)
      as (chunks & Hrun & Hcat & Hmap).
    exists chunks. rewrite Stream_new_of. auto.
Qed.

Lemma Stream_invariant_and_partition_witness :
  let pad := pad_array_model pad_left in
  let bytes := [Byte.x0a; Byte.x0b; Byte.x0c; Byte.x0d; Byte.x0e] in
  let s := Stream_of [Byte.x02; Byte.x0b; Byte.x0c; Byte.x0d] in
  Stream_ok (Stream_new pad bytes) /\
  Stream_ok (snd (peek pad 9 s)) /\
  Stream_ok (snd (read pad None s)) /\
  Stream_ok (snd (readSize pad (Some le) s)) /\
  match read pad (Some 3) s with
  | (Ok chunk, s') =>
      size s' = size s - 3 /\
      Z.of_nat (length chunk) = 3 /\
      data s = chunk ++ data s'
  | (Err e, s') => 3 > size s /\ s' = s
  end /\
  exists chunks : list Buff,
    reads pad [2; 0; 3] (Stream_new pad bytes) = (Ok chunks, Stream_of []) /\
    size (Stream_of []) = 0 /\
    concat chunks = bytes /\
    map (fun c => Z.of_nat (length c)) chunks = [2; 0; 3].
Proof.
  intros pad bytes s.
  apply (Stream_invariant_and_partition pad bytes s 9 None (Some le) 3 [2; 0; 3]).
  - reflexivity.
  - lia.
  - repeat constructor; lia.
  - reflexivity.
Defined.

(** ** The buffer *)

(** C8.  A buffer constructed with a target size has exactly that length,
    whether the data are longer than the target (truncation) or shorter
    (padding), and whichever side the padding helper pads and keeps.  The
    constructor hands every size request to the helper, and so do the
    factories for bytes, numbers and hex strings. *)
Theorem Buff_new_exact_size
    (p : PadPolicy) (data : list byte) (number : Z) (endian : option Endian)
    (hex : string) (size : Z) :
  0 <= size ->
  Z.of_nat (length (Buff_new (pad_array_model p) data (Some size))) = size /\
  Z.of_nat (length (bytesToBuff (pad_array_model p) data (Some size))) = size /\
  Z.of_nat (length (numToBuff (pad_array_model p) number (Some size) endian))
  = size /\
  match hexToBuff (pad_array_model p) hex (Some size) with
  | Ok b => Z.of_nat (length b) = size
  | Err e => e = MalformedEncoding
  end.
Proof.
  intros Hsize.
  assert (forall bytes, Z.of_nat (length (pad_array_model p bytes size)) = size)
    as Hlen by (intros bytes; rewrite pad_array_model_length; lia).
  unfold bytesToBuff, numToBuff, hexToBuff, Buff_new.
  split; [apply Hlen|]. split; [apply Hlen|]. split; [apply Hlen|].
  destruct (hexToBytes hex) as [bytes|e] eqn:E; [apply Hlen|].
  exact (hexToBytes_error hex e E).
Qed.

Lemma Buff_new_exact_size_witness :
  let bytes := [Byte.xde; Byte.xad; Byte.xbe; Byte.xef] in
  length (Buff_new (pad_array_model pad_left) bytes (Some 2)) = 2%nat /\
  length (Buff_new (pad_array_model pad_right) bytes (Some 6)) = 6%nat.
Proof.
  intros bytes. split.
  - pose proof (Buff_new_exact_size pad_left bytes 0 None "" 2 ltac:(lia))
      as [H _]. lia.
  - pose proof (Buff_new_exact_size pad_right bytes 0 None "" 6 ltac:(lia))
      as [H _]. lia.
Defined.

(** C9.  [reverse ()] returns a new array (a location that did not exist
    before) holding the bytes of the receiver in reversed order, and the
    bytes of the receiver are unchanged; on values it is list reversal.  The
    buffer built from the hex string deadbeef has length 4 and the hex of
    its reverse is efbeadde. *)
Theorem Buff_reverse_new_buffer
    (pad : list byte -> Z -> list byte)
    (h : Obj.store) (this : Obj.ref) (bytes : list byte) :
  h !! this = Some bytes ->
  (exists (r : Obj.ref) (h' : Obj.store),
      Obj.Buff_reverse h this = Some (r, h') /\
      h' !! r = Some (rev bytes) /\
      h !! r = None /\
      h' !! this = Some bytes) /\
  Buff_reverse pad bytes = rev bytes /\
  hexToBuff pad "deadbeef" None = Ok [Byte.xde; Byte.xad; Byte.xbe; Byte.xef] /\
  length [Byte.xde; Byte.xad; Byte.xbe; Byte.xef] = 4%nat /\
  toHex (Buff_reverse pad [Byte.xde; Byte.xad; Byte.xbe; Byte.xef])
  = "efbeadde"%string.
Proof.
  intros Hthis. split; [|repeat split].
  destruct (Buff_reverse_obj h this bytes Hthis)
    as (r & h' & Hrun & Hr & Hfresh & Hsub).
  exists r, h'. split; [exact Hrun|]. split; [exact Hr|].
  split; [exact Hfresh|]. exact (lookup_weaken _ _ _ _ Hthis Hsub).
Qed.

Lemma Buff_reverse_new_buffer_witness :
  let pad := pad_array_model pad_left in
  let bytes := [Byte.xde; Byte.xad; Byte.xbe; Byte.xef] in
  let h : Obj.store := {[ 5%positive := bytes ]} in
  (exists (r : Obj.ref) (h' : Obj.store),
      Obj.Buff_reverse h 5%positive = Some (r, h') /\
      h' !! r = Some [Byte.xef; Byte.xbe; Byte.xad; Byte.xde] /\
      h !! r = None /\
      h' !! 5%positive = Some bytes) /\
  Buff_reverse pad bytes = [Byte.xef; Byte.xbe; Byte.xad; Byte.xde] /\
  hexToBuff pad "deadbeef" None = Ok bytes /\
  length bytes = 4%nat /\
  toHex (Buff_reverse pad bytes) = "efbeadde"%string.
Proof.
  intros pad bytes h.
  apply (Buff_reverse_new_buffer pad h 5%positive bytes).
  reflexivity.
Defined.

(** C10.  [varInt] does not check that its argument is not negative: on a
    negative number it does not throw, it takes the first branch,
    [Buff.num (num, 1)], and the buffer it returns has one byte (given a
    padding helper that pads to the size it is asked for). *)
Theorem varInt_negative_one_byte
    (pad : list byte -> Z -> list byte) (num : Z) (endian : option Endian) :
  pads_to_size pad ->
  num < 0 ->
  varInt pad num endian = Ok (numToBuff pad num (Some 1) None) /\
  length (numToBuff pad num (Some 1) None) = 1%nat.
Proof.
  intros Hpad Hneg. split.
  - unfold varInt. destruct (Z.ltb_spec num 0xFD); [reflexivity|lia].
  - unfold numToBuff, Buff_new. rewrite Hpad by lia. reflexivity.
Qed.

Lemma varInt_negative_one_byte_witness :
  let pad := pad_array_model pad_left in
  varInt pad (-7) (Some le) = Ok (numToBuff pad (-7) (Some 1) None) /\
  length (numToBuff pad (-7) (Some 1) None) = 1%nat.
Proof.
  intros pad.
  apply (varInt_negative_one_byte pad (-7) (Some le)).
  - apply pad_array_model_to_size.
  - lia.
Defined.


(** * Further properties of the code *)

(** ** The varint codec *)

(** X1.  Whatever the padding helper does, as long as it pads to the size
    asked for: [varInt] returns 1, 3, 5 or 9 bytes according to the range of
    the number, the first of them the marker of the range from 0xFD on, and
    it throws exactly from 2^64 on. *)
Theorem varInt_length_and_marker
    (pad : list byte -> Z -> list byte) (num : Z) (endian : option Endian) :
  pads_to_size pad ->
  match varInt pad num endian with
  | Ok b =>
      num < 2 ^ 64 /\
      length b = varint_length num /\
      (0xFD <= num -> head b = Some (varint_marker num))
  | Err e => 2 ^ 64 <= num /\ e = ValueTooLarge num
  end.
Proof.
  intros Hpad. change (2 ^ 64) with 0x10000000000000000.
  unfold varInt, varint_length, varint_marker.
  assert (forall w e, 0 <= w ->
            length (numToBuff pad num (Some w) e) = Z.to_nat w) as Hlen.
  { intros w e Hw. unfold numToBuff, Buff_new. apply Hpad, Hw. }
  destruct (Z.ltb_spec num 0xFD).
  { rewrite Hlen by lia. repeat split; lia. }
  destruct (Z.ltb_spec num 0x10000).
  { rewrite Buff_of_spread. cbn [length head]. rewrite Hlen by lia.
    repeat split; lia. }
  destruct (Z.ltb_spec num 0x100000000).
  { rewrite Buff_of_spread. cbn [length head]. rewrite Hlen by lia.
    repeat split; lia. }
  destruct (Z.ltb_spec num 0x10000000000000000).
  { rewrite Buff_of_spread. cbn [length head]. rewrite Hlen by lia.
    repeat split; lia. }
  split; [lia|reflexivity].
Qed.

Lemma varInt_length_and_marker_witness :
  match varInt (pad_array_model pad_right) 70000 (Some le) with
  | Ok b =>
      70000 < 2 ^ 64 /\
      length b = 5%nat /\
      (0xFD <= 70000 -> head b = Some Byte.xfe)
  | Err e => 2 ^ 64 <= 70000 /\ e = ValueTooLarge 70000
  end.
Proof.
  apply (varInt_length_and_marker (pad_array_model pad_right) 70000 (Some le)).
  apply pad_array_model_to_size.
Defined.

(** X2.  With a padding helper that suits the endianness, [varInt] writes
    the row of the wire-format table for the number, in that endianness;
    an omitted endianness is big-endian. *)
Theorem varInt_writes_table
    (pad : list byte -> Z -> list byte) (num : Z) (endian : option Endian) :
  pad_suits pad (endian_or_be endian) ->
  0 <= num ->
  varInt pad num endian = varint_table num (endian_or_be endian).
Proof.
  intros Hpad Hnum. destruct endian as [[|]|]; cbn [endian_or_be pad_suits] in *.
  - apply varInt_table_be; auto.
  - apply varInt_table_le; auto.
  - apply varInt_table_be; auto.
Qed.

Lemma varInt_writes_table_witness :
  varInt (pad_array_model pad_right) 70000 (Some le)
  = varint_table 70000 le /\
  varInt (pad_array_model pad_left) 70000 None = varint_table 70000 be.
Proof.
  split.
  - apply (varInt_writes_table (pad_array_model pad_right) 70000 (Some le));
      [apply pad_right_zeros_back | lia].
  - apply (varInt_writes_table (pad_array_model pad_left) 70000 None);
      [apply pad_left_zeros_front | lia].
Defined.

(** X3.  [readSize] decodes the row of the wire-format table of every
    number from 0 up to 2^53 - 1 (the numbers that [toNum] computes
    exactly), in the endianness it is given and whatever follows the row in
    the stream: it returns the number and leaves exactly what follows.  No
    padding helper is involved in decoding. *)
Theorem readSize_reads_table
    (pad : list byte -> Z -> list byte) (endian : option Endian)
    (n : Z) (bytes rest : list byte) :
  0 <= n < 2 ^ 53 ->
  varint_table n (endian_or_be endian) = Ok bytes ->
  readSize pad endian (Stream_new pad (bytes ++ rest)) = (Ok n, Stream_of rest).
Proof.
  intros Hn Hrow. rewrite Stream_new_of. apply readSize_table; [lia|assumption].
Qed.

Lemma readSize_reads_table_witness :
  readSize (pad_array_model pad_left) (Some le)
    (Stream_new (pad_array_model pad_left)
       ([Byte.xfd; Byte.x34; Byte.x12] ++ [Byte.xaa]))
  = (Ok 0x1234, Stream_of [Byte.xaa]).
Proof.
  apply (readSize_reads_table (pad_array_model pad_left) (Some le) 0x1234
           [Byte.xfd; Byte.x34; Byte.x12] [Byte.xaa]).
  - lia.
  - reflexivity.
Defined.

(** X4.  [readSize] does not insist on the shortest form: after a marker it
    reads the 2, 4 or 8 bytes as a number whatever its value (up to
    2^53 - 1, the numbers that [toNum] computes exactly), so a number below
    0xFD written behind the marker 0xFD is decoded all the same. *)
Theorem readSize_accepts_long_forms
    (pad : list byte -> Z -> list byte) (endian : option Endian)
    (marker : byte) (width : nat) (n : Z) (rest : list byte) :
  long_form marker width ->
  0 <= n < 256 ^ Z.of_nat width ->
  n < 2 ^ 53 ->
  readSize pad endian
    (Stream_of (marker :: uint_bytes (endian_or_be endian) width n ++ rest))
  = (Ok n, Stream_of rest).
Proof.
  intros Hform Hn _. rewrite readSize_cons.
  destruct Hform as [[-> ->]|[[-> ->]|[-> ->]]];
    cbn -[read_sized toNum uint_bytes Z.of_nat]; unfold bind.
  - change 2 with (Z.of_nat 2) at 1. rewrite read_uint_bytes. unfold ret.
    rewrite toNum_uint_bytes by exact Hn. reflexivity.
  - change 4 with (Z.of_nat 4) at 1. rewrite read_uint_bytes. unfold ret.
    rewrite toNum_uint_bytes by exact Hn. reflexivity.
  - change 8 with (Z.of_nat 8) at 1. rewrite read_uint_bytes. unfold ret.
    rewrite toNum_uint_bytes by exact Hn. reflexivity.
Qed.

Lemma readSize_accepts_long_forms_witness :
  readSize (pad_array_model pad_left) None
    (Stream_of (Byte.xfe :: uint_bytes be 4 5 ++ [Byte.xaa]))
  = (Ok 5, Stream_of [Byte.xaa]).
Proof.
  apply (readSize_accepts_long_forms (pad_array_model pad_left) None
           Byte.xfe 4 5 [Byte.xaa]).
  - right. left. split; reflexivity.
  - cbn. lia.
  - lia.
Defined.

(** X5.  The round trip of the codec, with more bytes behind the encoding:
    under a padding helper that suits the endianness, every number from 0
    up to 2^64 - 1 is encoded, and [readSize] over the encoding followed by
    anything returns the number and leaves what followed. *)
Theorem varInt_readSize_round_trip
    (pad : list byte -> Z -> list byte) (n : Z) (endian : option Endian)
    (rest : list byte) :
  pad_suits pad (endian_or_be endian) ->
  0 <= n < 2 ^ 64 ->
  exists bytes : Buff,
    varInt pad n endian = Ok bytes /\
    readSize pad endian (Stream_new pad (bytes ++ rest))
    = (Ok n, Stream_of rest).
Proof.
  intros Hpad Hn.
  pose proof (varInt_ok pad n endian ltac:(lia)) as Hok.
  destruct (varInt pad n endian) as [bytes|] eqn:E; [|discriminate].
  exists bytes. split; [reflexivity|].
  rewrite Stream_new_of. apply readSize_table; [lia|].
  etransitivity; [symmetry|exact E].
  destruct endian as [[|]|]; cbn [endian_or_be pad_suits] in *.
  - apply varInt_table_be; auto || lia.
  - apply varInt_table_le; auto || lia.
  - apply varInt_table_be; auto || lia.
Qed.

Lemma varInt_readSize_round_trip_witness :
  exists bytes : Buff,
    varInt (pad_array_model pad_right) 0xFD (Some le) = Ok bytes /\
    readSize (pad_array_model pad_right) (Some le)
      (Stream_new (pad_array_model pad_right) (bytes ++ [Byte.xaa]))
    = (Ok 0xFD, Stream_of [Byte.xaa]).
Proof.
  apply (varInt_readSize_round_trip (pad_array_model pad_right) 0xFD (Some le)
           [Byte.xaa]).
  - apply pad_right_zeros_back.
  - lia.
Defined.

(** X6.  A varint cut short.  On an empty stream [readSize] throws
    SizeExceeded and the stream is as before.  When a marker is followed by
    fewer bytes than it announces, [readSize] throws SizeExceeded for the
    read of the announced width, and the marker is consumed: the stream is
    left at the bytes behind it. *)
Theorem readSize_truncated
    (pad : list byte -> Z -> list byte) (endian : option Endian)
    (marker : byte) (width : nat) (x : list byte) :
  long_form marker width ->
  (length x < width)%nat ->
  readSize pad endian (Stream_of [])
  = (Err (SizeExceeded 1 0), Stream_of []) /\
  readSize pad endian (Stream_of (marker :: x))
  = (Err (SizeExceeded (Z.of_nat width) (Z.of_nat (length x))), Stream_of x).
Proof.
  intros Hform Hlen. split; [reflexivity|].
  rewrite readSize_cons.
  destruct Hform as [[-> ->]|[[-> ->]|[-> ->]]];
    cbn -[read_sized toNum Z.of_nat]; unfold bind.
  - change 2 with (Z.of_nat 2) at 1.
    rewrite read_sized_exceeds by (cbn [size Stream_of]; lia). reflexivity.
  - change 4 with (Z.of_nat 4) at 1.
    rewrite read_sized_exceeds by (cbn [size Stream_of]; lia). reflexivity.
  - change 8 with (Z.of_nat 8) at 1.
    rewrite read_sized_exceeds by (cbn [size Stream_of]; lia). reflexivity.
Qed.

Lemma readSize_truncated_witness :
  readSize (pad_array_model pad_left) None (Stream_of [])
  = (Err (SizeExceeded 1 0), Stream_of []) /\
  readSize (pad_array_model pad_left) None
    (Stream_of [Byte.xfe; Byte.x01; Byte.x02])
  = (Err (SizeExceeded 4 2), Stream_of [Byte.x01; Byte.x02]).
Proof.
  apply (readSize_truncated (pad_array_model pad_left) None Byte.xfe 4
           [Byte.x01; Byte.x02]).
  - right. left. split; reflexivity.
  - cbn. lia.
Defined.

(** ** Length-prefixed fields on the wire *)

Lemma Buff_join_concat (pad : list byte -> Z -> list byte)
    (arr : list (list byte)) :
  Buff_join pad arr = concat arr.
Proof.
  unfold Buff_join, join_array, Buff_new, bytesToBuff, Buff_new.
  rewrite map_id. reflexivity.
Qed.

(** The bytes of [prefixSize] read back by [read ()]. *)
Lemma prefixSize_read
    (pad : list byte -> Z -> list byte) (endian : option Endian)
    (payload rest : list byte) :
  pads_zeros_front pad ->
  endian_or_be endian = be ->
  Z.of_nat (length payload) < 2 ^ 64 ->
  exists wire : Buff,
    prefixSize pad payload endian = Ok wire /\
    length wire = (varint_length (Z.of_nat (length payload)) + length payload)%nat /\
    read pad None (Stream_new pad (wire ++ rest)) = (Ok payload, Stream_of rest).
Proof.
  intros Hpad He Hlen. unfold prefixSize.
  pose proof (varInt_ok pad (Z.of_nat (length payload)) endian Hlen) as Hok.
  destruct (varInt pad (Z.of_nat (length payload)) endian) as [prefix|] eqn:E;
    [|discriminate].
  exists (prefix ++ payload).
  split; [rewrite Buff_join_concat; cbn; rewrite app_nil_r; reflexivity|].
  split.
  - rewrite length_app. f_equal.
    rewrite varInt_table_be in E by (auto || lia).
    unfold varint_table, varint_length in *.
    repeat case_match; try discriminate; injection E as <-; cbn [length];
      rewrite ?uint_bytes_length; reflexivity.
  - rewrite varInt_table_be in E by (auto || lia).
    rewrite Stream_new_of, read_none, <- app_assoc.
    rewrite (readSize_table pad None (Z.of_nat (length payload)) prefix
               (payload ++ rest)) by (lia || exact E).
    apply read_sized_app.
Qed.

(** X7.  [prefixSize] and [read ()] are inverse to each other with the
    default endianness: under a padding helper that puts zeros in front,
    [read ()] over the prefixed bytes of a payload, followed by anything,
    returns the payload and leaves what followed. *)
Theorem prefixSize_read_round_trip
    (pad : list byte -> Z -> list byte) (endian : option Endian)
    (payload rest : list byte) :
  pads_zeros_front pad ->
  endian_or_be endian = be ->
  Z.of_nat (length payload) < 2 ^ 64 ->
  exists wire : Buff,
    prefixSize pad payload endian = Ok wire /\
    length wire = (varint_length (Z.of_nat (length payload)) + length payload)%nat /\
    read pad None (Stream_new pad (wire ++ rest)) = (Ok payload, Stream_of rest).
Proof.
  apply prefixSize_read.
Qed.

Lemma prefixSize_read_round_trip_witness :
  exists wire : Buff,
    prefixSize (pad_array_model pad_left) [Byte.xaa; Byte.xbb] None = Ok wire /\
    length wire = (varint_length 2 + 2)%nat /\
    read (pad_array_model pad_left) None
      (Stream_new (pad_array_model pad_left) (wire ++ [Byte.xcc]))
    = (Ok [Byte.xaa; Byte.xbb], Stream_of [Byte.xcc]).
Proof.
  apply (prefixSize_read_round_trip (pad_array_model pad_left) None
           [Byte.xaa; Byte.xbb] [Byte.xcc]).
  - apply pad_left_zeros_front.
  - reflexivity.
  - cbn. lia.
Defined.

(** X8.  Several fields, each behind its length prefix and joined with
    [Buff.join], are taken back in order by as many calls of [read ()]
    (default endianness, zeros in front), and the stream is left at what
    followed the last field. *)
Theorem read_fields_round_trip
    (pad : list byte -> Z -> list byte) (endian : option Endian)
    (payloads : list Buff) (rest : list byte) :
  pads_zeros_front pad ->
  endian_or_be endian = be ->
  Forall (fun p : Buff => Z.of_nat (length p) < 2 ^ 64) payloads ->
  exists fields : list Buff,
    prefix_all pad payloads endian = Ok fields /\
    read_fields pad (length payloads)
      (Stream_new pad (Buff_join pad fields ++ rest))
    = (Ok payloads, Stream_of rest).
Proof.
  intros Hpad He Hall. induction Hall as [|payload payloads Hlen Hall IH].
  - exists []. split; reflexivity.
  - destruct IH as (fields & Hfields & Hrun).
    destruct (prefixSize_read pad endian payload
                (Buff_join pad fields ++ rest) Hpad He Hlen)
      as (wire & Hwire & _ & Hread).
    exists (wire :: fields). cbn [prefix_all]. rewrite Hwire, Hfields.
    split; [reflexivity|].
    cbn [length read_fields]. unfold bind at 1.
    rewrite Buff_join_concat in *. cbn [concat]. rewrite <- app_assoc.
    rewrite Hread. unfold bind at 1.
    rewrite Stream_new_of in Hrun. rewrite Hrun. reflexivity.
Qed.

Lemma read_fields_round_trip_witness :
  exists fields : list Buff,
    prefix_all (pad_array_model pad_left)
      [[Byte.xaa; Byte.xbb]; []; [Byte.xdd]] None = Ok fields /\
    read_fields (pad_array_model pad_left) 3
      (Stream_new (pad_array_model pad_left)
         (Buff_join (pad_array_model pad_left) fields ++ [Byte.xee]))
    = (Ok [[Byte.xaa; Byte.xbb]; []; [Byte.xdd]], Stream_of [Byte.xee]).
Proof.
  apply (read_fields_round_trip (pad_array_model pad_left) None
           [[Byte.xaa; Byte.xbb]; []; [Byte.xdd]] [Byte.xee]).
  - apply pad_left_zeros_front.
  - reflexivity.
  - repeat constructor; cbn; lia.
Defined.

(** X9.  [read ()] is not undone when it throws: when the bytes behind a
    length prefix are fewer than the prefix announces (a length up to
    2^53 - 1, which [toNum] computes exactly), [read ()] throws
    SizeExceeded for the announced length and the prefix is consumed, the
    stream being left at the short payload. *)
Theorem read_short_payload
    (pad : list byte -> Z -> list byte)
    (n : Z) (prefix short : list byte) :
  0 <= n < 2 ^ 53 ->
  varint_table n be = Ok prefix ->
  Z.of_nat (length short) < n ->
  read pad None (Stream_new pad (prefix ++ short))
  = (Err (SizeExceeded n (Z.of_nat (length short))), Stream_of short).
Proof.
  intros [Hn _] Hrow Hshort. rewrite Stream_new_of, read_none.
  rewrite (readSize_table pad None n prefix short Hn Hrow).
  apply read_sized_exceeds. cbn [size Stream_of]. lia.
Qed.

Lemma read_short_payload_witness :
  read (pad_array_model pad_left) None
    (Stream_new (pad_array_model pad_left) ([Byte.x03] ++ [Byte.xaa; Byte.xbb]))
  = (Err (SizeExceeded 3 2), Stream_of [Byte.xaa; Byte.xbb]).
Proof.
  apply (read_short_payload (pad_array_model pad_left) 3 [Byte.x03]
           [Byte.xaa; Byte.xbb]).
  - lia.
  - reflexivity.
  - cbn. lia.
Defined.

(** X10.  [read ()] decodes the length prefix big-endian, whatever
    endianness [prefixSize] was given.  For a payload of 253 up to 65535
    bytes prefixed with 'le' (zeros behind, so that the prefix is the
    little-endian one), [readSize ()] inside [read ()] returns the length
    with its two bytes swapped, and unless the two bytes are equal
    [read ()] does not return the payload. *)
Theorem prefixSize_le_read_swaps
    (pad : list byte -> Z -> list byte) (payload : list byte) :
  pads_zeros_back pad ->
  0xFD <= Z.of_nat (length payload) < 0x10000 ->
  let n := Z.of_nat (length payload) in
  let swapped := 256 * (n mod 256) + n / 256 in
  exists wire : Buff,
    prefixSize pad payload (Some le) = Ok wire /\
    readSize pad None (Stream_new pad wire) = (Ok swapped, Stream_of payload) /\
    (swapped <> n ->
     fst (read pad None (Stream_new pad wire)) <> Ok payload).
Proof.
  intros Hpad Hn n swapped. unfold prefixSize. fold n.
  rewrite varInt_table_le by (auto || lia).
  unfold varint_table.
  destruct (Z.ltb_spec n 0xFD); [lia|].
  destruct (Z.ltb_spec n 0x10000); [|lia].
  eexists. split; [reflexivity|].
  rewrite Buff_join_concat, Stream_new_of. cbn [concat uint_bytes uint_le app].
  rewrite app_nil_r.
  assert (toNum pad [byte_of_Z n; byte_of_Z (n / 256)] None = swapped) as Hnum.
  { unfold toNum, Buff_reverse, Buff_new. cbn [endian_or_be rev app bytesToNum].
    rewrite !byte_to_of_Z. subst swapped.
    rewrite (Z.mod_small (n / 256)); [lia|].
    split; [apply Z.div_pos; lia|apply Z.div_lt_upper_bound; lia]. }
  split.
  - rewrite readSize_0xFD, Hnum. reflexivity.
  - intros Hne. rewrite read_none, readSize_0xFD, Hnum.
    destruct (read_sized_cases pad swapped (Stream_of payload))
      as [[_ ->]|[Hle ->]]; [discriminate|].
    cbn [fst data Stream_of size] in *. intros [= Heq].
    apply (f_equal (@length byte)) in Heq. rewrite length_firstn in Heq.
    assert (0 <= swapped).
    { subst swapped. pose proof (Z.mod_pos_bound n 256 ltac:(lia)).
      pose proof (Z.div_pos n 256 ltac:(lia) ltac:(lia)). lia. }
    rewrite cut_inside in Heq by (fold n; lia). fold n in Hle. lia.
Qed.

Lemma prefixSize_le_read_swaps_witness :
  exists wire : Buff,
    prefixSize (pad_array_model pad_right) (repeat Byte.x00 256) (Some le)
    = Ok wire /\
    readSize (pad_array_model pad_right) None
      (Stream_new (pad_array_model pad_right) wire)
    = (Ok (256 * (Z.of_nat (length (repeat Byte.x00 256)) mod 256)
           + Z.of_nat (length (repeat Byte.x00 256)) / 256),
       Stream_of (repeat Byte.x00 256)) /\
    (256 * (Z.of_nat (length (repeat Byte.x00 256)) mod 256)
     + Z.of_nat (length (repeat Byte.x00 256)) / 256
     <> Z.of_nat (length (repeat Byte.x00 256)) ->
     fst (read (pad_array_model pad_right) None
            (Stream_new (pad_array_model pad_right) wire))
     <> Ok (repeat Byte.x00 256)).
Proof.
  apply (prefixSize_le_read_swaps (pad_array_model pad_right)
           (repeat Byte.x00 256)).
  - apply pad_right_zeros_back.
  - rewrite repeat_length. lia.
Defined.

(** ** Numbers in and out of buffers *)

(** X11.  Without a target size no padding takes place, and the number
    survives [Buff.num (n, undefined, endian).toNum (endian)] in both
    endiannesses, whatever the padding helper is. *)
Theorem numToBuff_toNum_unsized
    (pad : list byte -> Z -> list byte) (n : Z) (endian : option Endian) :
  0 <= n ->
  toNum pad (numToBuff pad n None endian) endian = n.
Proof.
  intros Hn. unfold toNum, numToBuff, Buff_reverse, Buff_new.
  destruct (endian_or_be endian).
  - rewrite rev_involutive. apply bytesToNum_numToBytes, Hn.
  - apply bytesToNum_numToBytes, Hn.
Qed.

Lemma numToBuff_toNum_unsized_witness :
  toNum (pad_array_model pad_left)
    (numToBuff (pad_array_model pad_left) 0x123456 None (Some le)) (Some le)
  = 0x123456.
Proof.
  apply (numToBuff_toNum_unsized (pad_array_model pad_left) 0x123456 (Some le)).
  lia.
Defined.

(** X12.  With a target size and a padding helper that suits the
    endianness, [Buff.num (n, size, endian)] is the fixed-width integer of
    that size in that endianness, for every number that fits, and [toNum]
    with the same endianness reads the number back. *)
Theorem numToBuff_sized
    (pad : list byte -> Z -> list byte) (n : Z) (width : nat)
    (endian : option Endian) :
  pad_suits pad (endian_or_be endian) ->
  0 <= n < 256 ^ Z.of_nat width ->
  numToBuff pad n (Some (Z.of_nat width)) endian
  = uint_bytes (endian_or_be endian) width n /\
  length (numToBuff pad n (Some (Z.of_nat width)) endian) = width /\
  toNum pad (numToBuff pad n (Some (Z.of_nat width)) endian) endian = n.
Proof.
  intros Hpad Hn.
  assert (numToBuff pad n (Some (Z.of_nat width)) endian
          = uint_bytes (endian_or_be endian) width n) as ->.
  { destruct endian as [[|]|]; cbn [endian_or_be pad_suits] in *.
    - apply numToBuff_be; auto.
    - apply numToBuff_le; auto.
    - apply numToBuff_be; auto. }
  split; [reflexivity|]. split; [apply uint_bytes_length|].
  apply toNum_uint_bytes, Hn.
Qed.

Lemma numToBuff_sized_witness :
  numToBuff (pad_array_model pad_right) 0x1234 (Some (Z.of_nat 4)) (Some le)
  = uint_bytes le 4 0x1234 /\
  length (numToBuff (pad_array_model pad_right) 0x1234 (Some (Z.of_nat 4))
            (Some le)) = 4%nat /\
  toNum (pad_array_model pad_right)
    (numToBuff (pad_array_model pad_right) 0x1234 (Some (Z.of_nat 4)) (Some le))
    (Some le) = 0x1234.
Proof.
  apply (numToBuff_sized (pad_array_model pad_right) 0x1234 4 (Some le)).
  - apply pad_right_zeros_back.
  - cbn. lia.
Defined.

(** X13.  For a buffer of at most six bytes (whose number is below 2^48 and
    so computed exactly by [toNum]): the number is never negative and is
    below 256 to the length of the buffer; and, as long as the whole stays
    within six bytes, zero bytes in front do not change the big-endian
    number and zero bytes behind do not change the little-endian one. *)
Theorem toNum_range_and_zeros
    (pad : list byte -> Z -> list byte) (b : Buff) (endian : option Endian)
    (k : nat) :
  (k + length b <= 6)%nat ->
  0 <= toNum pad b endian < 256 ^ Z.of_nat (length b) /\
  toNum pad b endian < 2 ^ 48 /\
  toNum pad (repeat Byte.x00 k ++ b) (Some be) = toNum pad b (Some be) /\
  toNum pad (b ++ repeat Byte.x00 k) (Some le) = toNum pad b (Some le).
Proof.
  intros Hlen.
  assert (0 <= toNum pad b endian < 256 ^ Z.of_nat (length b)) as Hrange.
  { unfold toNum, Buff_reverse, Buff_new. destruct (endian_or_be endian).
    - pose proof (bytesToNum_bound (rev b)) as Hb. rewrite length_rev in Hb.
      pose proof (bytesToNum_nonneg (rev b)). lia.
    - pose proof (bytesToNum_bound b). pose proof (bytesToNum_nonneg b). lia. }
  split; [exact Hrange|]. split.
  - apply Z.lt_le_trans with (256 ^ Z.of_nat (length b)); [lia|].
    change (2 ^ 48) with (256 ^ 6). apply Z.pow_le_mono_r; lia.
  - unfold toNum, Buff_reverse, Buff_new. cbn [endian_or_be]. split.
    + rewrite rev_app_distr, rev_repeat. apply bytesToNum_app_zeros.
    + apply bytesToNum_app_zeros.
Qed.

Lemma toNum_range_and_zeros_witness :
  let pad := pad_array_model pad_left in
  let b := [Byte.x12; Byte.x34; Byte.x56] in
  0 <= toNum pad b (Some le) < 256 ^ Z.of_nat (length b) /\
  toNum pad b (Some le) < 2 ^ 48 /\
  toNum pad (repeat Byte.x00 2 ++ b) (Some be) = toNum pad b (Some be) /\
  toNum pad (b ++ repeat Byte.x00 2) (Some le) = toNum pad b (Some le).
Proof.
  intros pad b. apply (toNum_range_and_zeros pad b (Some le) 2). cbn. lia.
Defined.

(** X14.  [Buff.of] and [Buff.from] store every number modulo 256; the
    numbers of a buffer ([arr]) are all between 0 and 255, as many as the
    buffer has bytes; and [Buff.of (...b.arr)] is [b] again. *)
Theorem Buff_of_arr
    (pad : list byte -> Z -> list byte) (args : list Z) (b : Buff) :
  Buff_arr (Buff_of pad args) = map (fun z => z mod 256) args /\
  Buff_from pad args = Buff_of pad args /\
  length (Buff_arr b) = length b /\
  Forall (fun z => 0 <= z < 256) (Buff_arr b) /\
  Buff_of pad (Buff_arr b) = b.
Proof.
  unfold Buff_arr, Buff_of, Buff_from, Buff_new, spread.
  split; [|split; [reflexivity|split; [apply length_map|split]]].
  - rewrite map_map. apply map_ext. intros z. apply byte_to_of_Z.
  - apply Forall_map, Forall_forall. intros x _. apply byte_to_Z_range.
  - apply map_byte_of_to_Z.
Qed.

(** ** Slicing and joining *)


Lemma js_slice_length_le (arr : list byte) (start end_ : Z) :
  (length (js_slice arr start end_) <= length arr)%nat.
Proof.
  unfold js_slice. rewrite length_firstn, length_skipn. lia.
Qed.

Lemma js_slice_inside (arr : list byte) (a b : Z) :
  0 <= a <= b -> b <= Z.of_nat (length arr) ->
  js_slice arr a b = firstn (Z.to_nat (b - a)) (skipn (Z.to_nat a) arr).
Proof.
  intros Hab Hb. unfold js_slice.
  rewrite !rel_index_inside by lia. f_equal. lia.
Qed.

(** X15.  [slice] never throws and never returns more bytes than the
    receiver has; without arguments it returns the bytes of the receiver;
    and for every integer [k], negative or beyond the end as it may be,
    [slice (0, k)] followed by [slice (k)] is the receiver. *)
Theorem Buff_slice_partition
    (pad : list byte -> Z -> list byte) (this : Buff)
    (start end_ : option Z) (k : Z) :
  (length (Buff_slice pad this start end_) <= length this)%nat /\
  Buff_slice pad this None None = this /\
  Buff_slice pad this (Some 0) (Some k) ++ Buff_slice pad this (Some k) None
  = this.
Proof.
  unfold Buff_slice, Buff_new. cbn [default from_option id].
  split; [apply js_slice_length_le|]. split.
  - rewrite js_slice_inside by lia. cbn [Z.to_nat skipn].
    rewrite Z.sub_0_r, Nat2Z.id. apply firstn_all.
  - apply js_slice_partition.
Qed.

(** A slice with indices in range. *)
Lemma Buff_slice_inside
    (pad : list byte -> Z -> list byte) (this : Buff) (a b : Z) :
  0 <= a <= b ->
  b <= Z.of_nat (length this) ->
  Buff_slice pad this (Some a) (Some b)
  = firstn (Z.to_nat (b - a)) (skipn (Z.to_nat a) this) /\
  Z.of_nat (length (Buff_slice pad this (Some a) (Some b))) = b - a /\
  Buff_subarray pad this (Some a) (Some b)
  = Buff_slice pad this (Some a) (Some b).
Proof.
  intros Hab Hb. unfold Buff_slice, Buff_subarray, Buff_new. cbn [default from_option id].
  rewrite js_slice_inside by lia.
  split; [reflexivity|]. split; [|reflexivity].
  rewrite length_firstn, length_skipn. lia.
Qed.

(** X16.  For indices in range, 0 <= a <= b <= length, [slice (a, b)] is
    the [b - a] bytes from position [a] on, and [subarray (a, b)] returns
    the same bytes. *)
Theorem Buff_slice_in_range
    (pad : list byte -> Z -> list byte) (this : Buff) (a b : Z) :
  0 <= a <= b ->
  b <= Z.of_nat (length this) ->
  Buff_slice pad this (Some a) (Some b)
  = firstn (Z.to_nat (b - a)) (skipn (Z.to_nat a) this) /\
  Z.of_nat (length (Buff_slice pad this (Some a) (Some b))) = b - a /\
  Buff_subarray pad this (Some a) (Some b)
  = Buff_slice pad this (Some a) (Some b).
Proof.
  apply Buff_slice_inside.
Qed.

Lemma Buff_slice_in_range_witness :
  let this := [Byte.x0a; Byte.x0b; Byte.x0c; Byte.x0d; Byte.x0e] in
  let pad := pad_array_model pad_left in
  Buff_slice pad this (Some 1) (Some 3)
  = firstn (Z.to_nat (3 - 1)) (skipn (Z.to_nat 1) this) /\
  Z.of_nat (length (Buff_slice pad this (Some 1) (Some 3))) = 3 - 1 /\
  Buff_subarray pad this (Some 1) (Some 3)
  = Buff_slice pad this (Some 1) (Some 3).
Proof.
  intros this pad. apply (Buff_slice_in_range pad this 1 3).
  - lia.
  - cbn. lia.
Defined.

(** X17.  A negative index counts from the end: for k > 0, [slice (-k)] is
    the last [k] bytes of the receiver (all of them when it has fewer) and
    [slice (0, -k)] is what is in front of them. *)
Theorem Buff_slice_negative
    (pad : list byte -> Z -> list byte) (this : Buff) (k : Z) :
  0 < k ->
  Buff_slice pad this (Some (- k)) None
  = skipn (length this - Z.to_nat k) this /\
  Buff_slice pad this (Some 0) (Some (- k))
  = firstn (length this - Z.to_nat k) this.
Proof.
  intros Hk. unfold Buff_slice, Buff_new. cbn [default from_option id].
  change (js_slice this (- k) (Z.of_nat (length this)))
    with (js_slice_from this (- k)).
  rewrite js_slice_from_suffix, js_slice_prefix.
  assert (cut this (- k) = (length this - Z.to_nat k)%nat) as ->; [|split; reflexivity].
  unfold cut, rel_index. destruct (Z.ltb_spec (- k) 0); lia.
Qed.

Lemma Buff_slice_negative_witness :
  let this := [Byte.x0a; Byte.x0b; Byte.x0c; Byte.x0d; Byte.x0e] in
  let pad := pad_array_model pad_left in
  Buff_slice pad this (Some (- 2)) None = [Byte.x0d; Byte.x0e] /\
  Buff_slice pad this (Some 0) (Some (- 2)) = [Byte.x0a; Byte.x0b; Byte.x0c].
Proof.
  intros this pad. apply (Buff_slice_negative pad this 2). lia.
Defined.

(** X18.  Slices compose: for indices in range, a slice of a slice is the
    slice of the receiver at the added offsets. *)
Theorem Buff_slice_slice
    (pad : list byte -> Z -> list byte) (this : Buff) (a b c d : Z) :
  0 <= a <= b ->
  b <= Z.of_nat (length this) ->
  0 <= c <= d ->
  d <= b - a ->
  Buff_slice pad (Buff_slice pad this (Some a) (Some b)) (Some c) (Some d)
  = Buff_slice pad this (Some (a + c)) (Some (a + d)).
Proof.
  intros Hab Hb Hcd Hd.
  destruct (Buff_slice_inside pad this a b Hab Hb) as (Hin & Hlen & _).
  unfold Buff_slice at 1. unfold Buff_new. cbn [default from_option id].
  rewrite js_slice_inside by lia. rewrite Hin.
  unfold Buff_slice, Buff_new. cbn [default from_option id].
  rewrite js_slice_inside by lia.
  rewrite skipn_firstn_comm, firstn_firstn, skipn_skipn.
  replace (Z.to_nat (a + d - (a + c))) with (Z.to_nat (d - c)) by lia.
  replace (Z.to_nat c + Z.to_nat a)%nat with (Z.to_nat (a + c)) by lia.
  f_equal. lia.
Qed.

Lemma Buff_slice_slice_witness :
  let this := [Byte.x0a; Byte.x0b; Byte.x0c; Byte.x0d; Byte.x0e] in
  let pad := pad_array_model pad_left in
  Buff_slice pad (Buff_slice pad this (Some 1) (Some 5)) (Some 1) (Some 3)
  = Buff_slice pad this (Some (1 + 1)) (Some (1 + 3)).
Proof.
  intros this pad. apply (Buff_slice_slice pad this 1 5 1 3); cbn; lia.
Defined.

(** X19.  [append] puts the data behind the receiver and [prepend] in front
    of it; the two parts are found again by [slice] at the length of the
    first, and by a stream: reading the length of the first part returns it
    and leaves the second. *)
Theorem append_prepend_parts
    (pad : list byte -> Z -> list byte) (this bytes : list byte) :
  let n := Z.of_nat (length this) in
  append pad this bytes = this ++ bytes /\
  prepend pad this bytes = bytes ++ this /\
  Buff_slice pad (append pad this bytes) (Some 0) (Some n) = this /\
  Buff_slice pad (append pad this bytes) (Some n) None = bytes /\
  read pad (Some n) (Stream_new pad (append pad this bytes))
  = (Ok this, Stream_of bytes).
Proof.
  intros n.
  assert (append pad this bytes = this ++ bytes) as ->
    by (unfold append; rewrite Buff_join_concat; cbn; rewrite app_nil_r;
        reflexivity).
  assert (prepend pad this bytes = bytes ++ this) as ->
    by (unfold prepend; rewrite Buff_join_concat; cbn; rewrite app_nil_r;
        reflexivity).
  split; [reflexivity|]. split; [reflexivity|].
  unfold Buff_slice, Buff_new. cbn [default from_option id].
  change (js_slice (this ++ bytes) n (Z.of_nat (length (this ++ bytes))))
    with (js_slice_from (this ++ bytes) n).
  rewrite js_slice_prefix, js_slice_from_suffix.
  rewrite cut_inside by (rewrite length_app; lia).
  subst n. rewrite Nat2Z.id.
  rewrite firstn_app, skipn_app, Nat.sub_diag, firstn_all, skipn_all.
  cbn [firstn skipn app]. rewrite app_nil_r.
  split; [reflexivity|]. split; [reflexivity|].
  rewrite read_some, Stream_new_of. apply read_sized_app.
Qed.

(** X20.  [Buff.join] keeps the order of its parts, and a stream takes
    them apart again: reading the lengths of the parts, one after the
    other, from the joined buffer returns the parts and drains the
    stream. *)
Theorem join_reads_parts
    (pad : list byte -> Z -> list byte) (parts : list Buff) :
  Buff_join pad parts = concat parts /\
  reads pad (map (fun p => Z.of_nat (length p)) parts)
    (Stream_new pad (Buff_join pad parts))
  = (Ok parts, Stream_of []).
Proof.
  rewrite Buff_join_concat, Stream_new_of. split; [reflexivity|].
  induction parts as [|p parts IH]; [reflexivity|].
  cbn [map reads concat]. unfold bind at 1.
  rewrite read_some, read_sized_app. unfold bind at 1. rewrite IH.
  reflexivity.
Qed.

(** ** Writing in place *)

(** The three parts of a target after a [set] that succeeded. *)
Lemma js_set_ok (target source : list byte) (offset : Z) :
  0 <= offset ->
  Z.of_nat (length source) + offset <= Z.of_nat (length target) ->
  exists front back : list byte,
    js_set target source offset = SetOk (front ++ source ++ back) /\
    front = firstn (Z.to_nat offset) target /\
    back = skipn (Z.to_nat offset + length source) target /\
    length front = Z.to_nat offset.
Proof.
  intros Hoff Hfit. unfold js_set.
  destruct (Z.ltb_spec offset 0); [lia|].
  destruct (Z.gtb_spec (Z.of_nat (length source) + offset)
              (Z.of_nat (length target))); [lia|].
  eexists _, _. split; [reflexivity|]. split; [reflexivity|].
  split; [reflexivity|]. rewrite length_firstn. lia.
Qed.

(** X21.  [write (bytes, offset)] succeeds exactly when the offset is not
    negative and the bytes fit behind it (an omitted offset is 0);
    otherwise it throws the RangeError of [set].  When it succeeds the
    receiver keeps its length, holds the written bytes at the offset, and is
    unchanged in front of them and behind them. *)
Theorem Buff_write_spec
    (pad : list byte -> Z -> list byte) (this bytes : list byte)
    (offset : option Z) :
  let off := default 0 offset in
  let stop := off + Z.of_nat (length bytes) in
  match Buff_write pad this bytes offset with
  | SetOk this' =>
      0 <= off /\ stop <= Z.of_nat (length this) /\
      length this' = length this /\
      Buff_slice pad this' (Some off) (Some stop) = bytes /\
      Buff_slice pad this' (Some 0) (Some off)
      = Buff_slice pad this (Some 0) (Some off) /\
      Buff_slice pad this' (Some stop) None
      = Buff_slice pad this (Some stop) None
  | SetRangeError => off < 0 \/ stop > Z.of_nat (length this)
  end.
Proof.
  intros off stop. unfold Buff_write, bytesToBuff, Buff_new. fold off.
  destruct (Z.lt_ge_cases off 0) as [Hneg|Hoff].
  { unfold js_set. destruct (Z.ltb_spec off 0); [left; lia|lia]. }
  destruct (Z.lt_ge_cases (Z.of_nat (length this)) stop) as [Hbig|Hfit].
  { unfold js_set. destruct (Z.ltb_spec off 0); [lia|].
    destruct (Z.gtb_spec (Z.of_nat (length bytes) + off)
                (Z.of_nat (length this))); [right; lia|lia]. }
  destruct (js_set_ok this bytes off Hoff ltac:(lia))
    as (front & back & -> & Hfront & Hback & Hlen).
  assert (length back = (length this - Z.to_nat stop)%nat) as Hlenb
    by (rewrite Hback, length_skipn; lia).
  assert (length (front ++ bytes ++ back) = length this) as Hlen'
    by (rewrite !length_app; lia).
  split; [lia|]. split; [lia|]. split; [exact Hlen'|].
  unfold Buff_slice, Buff_new. cbn [default from_option id].
  change (js_slice (front ++ bytes ++ back) stop
            (Z.of_nat (length (front ++ bytes ++ back))))
    with (js_slice_from (front ++ bytes ++ back) stop).
  change (js_slice this stop (Z.of_nat (length this)))
    with (js_slice_from this stop).
  rewrite !js_slice_prefix, !js_slice_from_suffix.
  rewrite js_slice_inside by lia.
  rewrite !cut_inside by lia.
  replace (Z.to_nat (stop - off)) with (length bytes) by lia.
  replace (Z.to_nat stop) with (length (front ++ bytes)) at 1
    by (rewrite length_app; lia).
  split; [|split].
  - rewrite <- Hlen, drop_app_length, take_app_length. reflexivity.
  - rewrite <- Hfront, <- Hlen. apply take_app_length.
  - rewrite app_assoc, drop_app_length, Hback. f_equal. lia.
Qed.

(** ** Objects: what is copied and what is written in place *)

Lemma Uint8Array_slice_from_spec (h : Obj.store) (arr : Obj.ref)
    (bytes : list byte) (start : Z) :
  h !! arr = Some bytes ->
  exists (r : Obj.ref) (h' : Obj.store),
    Obj.Uint8Array_slice_from h arr start = Some (r, h') /\
    h' !! r = Some (js_slice_from bytes start) /\ h !! r = None /\ h ⊆ h'.
Proof.
  intros Harr. unfold Obj.Uint8Array_slice_from. rewrite Harr. cbn.
  set (v := js_slice_from bytes start).
  exists (Obj.alloc h v).1, (Obj.alloc h v).2.
  split; [destruct (Obj.alloc h v); reflexivity|].
  split; [apply alloc_lookup|]. split; [apply alloc_fresh|apply alloc_extends].
Qed.

Lemma fresh_in_extension (h h' : Obj.store) (r : Obj.ref) :
  h ⊆ h' -> h' !! r = None -> h !! r = None.
Proof.
  intros Hsub Hr. destruct (h !! r) as [x|] eqn:E; [|reflexivity].
  apply (lookup_weaken _ _ _ _ E) in Hsub. congruence.
Qed.

(** [slice] at the object level. *)
Lemma Buff_slice_obj (h : Obj.store) (this : Obj.ref) (bytes : list byte)
    (start end_ : option Z) :
  h !! this = Some bytes ->
  exists (r : Obj.ref) (h' : Obj.store),
    Obj.Buff_slice h this start end_ = Some (r, h') /\
    h' !! r = Some (js_slice bytes (default 0 start)
                      (default (Z.of_nat (length bytes)) end_)) /\
    h !! r = None /\ h ⊆ h'.
Proof.
  intros Hthis. unfold Obj.Buff_slice.
  destruct (Uint8Array_new_spec h this bytes Hthis)
    as (c & h1 & -> & Hc & _ & Hsub1).
  cbn. rewrite Hc. cbn.
  destruct (Uint8Array_slice_spec h1 c bytes (default 0 start)
              (default (Z.of_nat (length bytes)) end_) Hc)
    as (sl & h2 & -> & Hsl & _ & Hsub2).
  cbn. unfold Obj.Buff_new.
  destruct (Uint8Array_new_spec h2 sl _ Hsl)
    as (r & h3 & -> & Hr & Hfresh & Hsub3).
  exists r, h3. split; [reflexivity|]. split; [exact Hr|].
  assert (h ⊆ h2) as Hsub by (etransitivity; eassumption).
  split; [exact (fresh_in_extension h h2 r Hsub Hfresh)|].
  etransitivity; eassumption.
Qed.

(** [subarray] at the object level: the view is taken on a copy of the
    receiver and copied again by the constructor. *)
Lemma Buff_subarray_obj (h : Obj.store) (this : Obj.ref) (bytes : list byte)
    (begin end_ : option Z) :
  h !! this = Some bytes ->
  exists (r : Obj.ref) (h' : Obj.store),
    Obj.Buff_subarray h this begin end_ = Some (r, h') /\
    h' !! r = Some (js_slice bytes (default 0 begin)
                      (default (Z.of_nat (length bytes)) end_)) /\
    h !! r = None /\ h ⊆ h'.
Proof.
  intros Hthis. unfold Obj.Buff_subarray.
  destruct (Uint8Array_new_spec h this bytes Hthis)
    as (c & h1 & -> & Hc & _ & Hsub1).
  cbn. rewrite Hc. cbn.
  unfold Obj.Uint8Array_subarray. rewrite Hc. cbn.
  unfold Obj.Buff_new_view, Obj.view_bytes. cbn. rewrite Hc. cbn.
  eexists _, _. split; [reflexivity|].
  split; [apply lookup_insert_eq|]. split.
  - apply (fresh_in_extension h h1 _ Hsub1), not_elem_of_dom, is_fresh.
  - etransitivity; [exact Hsub1|].
    apply insert_subseteq, not_elem_of_dom, is_fresh.
Qed.

(** [write] changes no array but the receiver. *)
Lemma Buff_write_frame (h h' : Obj.store) (this src : Obj.ref)
    (offset : option Z) (ok : bool) :
  Obj.Buff_write h this src offset = Some (ok, h') ->
  forall (l : Obj.ref) (v : list byte),
    l <> this -> h !! l = Some v -> h' !! l = Some v.
Proof.
  unfold Obj.Buff_write, Obj.Buff_new, Obj.Uint8Array_new, Obj.Uint8Array_set.
  intros Hrun l v Hne Hl.
  destruct (h !! src) as [s|] eqn:Hs; [|discriminate].
  unfold Obj.alloc in Hrun. cbn in Hrun.
  set (b := fresh (dom h)) in *. set (h1 := <[b := s]> h) in *.
  assert (h ⊆ h1) as Hsub
    by (apply insert_subseteq, not_elem_of_dom, is_fresh).
  pose proof (lookup_weaken _ _ _ _ Hl Hsub) as Hl1.
  destruct (h1 !! this) as [t|]; [|discriminate]. cbn in Hrun.
  destruct (h1 !! b) as [s'|]; [|discriminate]. cbn in Hrun.
  destruct (js_set t s' (default 0 offset)); injection Hrun as <- <-.
  - rewrite lookup_insert_ne by congruence. exact Hl1.
  - exact Hl1.
Qed.

(** X22.  [write] works in place: it copies the source, then overwrites the
    array of the receiver itself when the bytes fit, and leaves it as it
    was when [set] throws; no other array that existed before is changed.
    The source may be the receiver. *)
Theorem write_in_place
    (h : Obj.store) (this src : Obj.ref) (t s : list byte)
    (offset : option Z) :
  h !! this = Some t ->
  h !! src = Some s ->
  exists (ok : bool) (h' : Obj.store),
    Obj.Buff_write h this src offset = Some (ok, h') /\
    match js_set t s (default 0 offset) with
    | SetOk t' => ok = true /\ h' !! this = Some t'
    | SetRangeError => ok = false /\ h' !! this = Some t
    end /\
    forall (l : Obj.ref) (v : list byte),
      l <> this -> h !! l = Some v -> h' !! l = Some v.
Proof.
  intros Hthis Hsrc.
  assert (exists ok h', Obj.Buff_write h this src offset = Some (ok, h') /\
            match js_set t s (default 0 offset) with
            | SetOk t' => ok = true /\ h' !! this = Some t'
            | SetRangeError => ok = false /\ h' !! this = Some t
            end) as (ok & h' & Hrun & Hres).
  { unfold Obj.Buff_write, Obj.Buff_new.
    destruct (Uint8Array_new_spec h src s Hsrc)
      as (b & h1 & -> & Hb & _ & Hsub).
    cbn. unfold Obj.Uint8Array_set.
    rewrite (lookup_weaken _ _ _ _ Hthis Hsub), Hb. cbn.
    destruct (js_set t s (default 0 offset)) as [t'|].
    - eexists _, _. split; [reflexivity|].
      split; [reflexivity|apply lookup_insert_eq].
    - eexists _, _. split; [reflexivity|].
      split; [reflexivity|exact (lookup_weaken _ _ _ _ Hthis Hsub)]. }
  exists ok, h'. split; [exact Hrun|]. split; [exact Hres|].
  exact (Buff_write_frame h h' this src offset ok Hrun).
Qed.

Lemma write_in_place_witness :
  let t := [Byte.x01; Byte.x02; Byte.x03; Byte.x04] in
  let s := [Byte.xaa; Byte.xbb] in
  let h : Obj.store := {[ 1%positive := t; 2%positive := s ]} in
  exists (ok : bool) (h' : Obj.store),
    Obj.Buff_write h 1%positive 2%positive (Some 1) = Some (ok, h') /\
    match js_set t s (default 0 (Some 1)) with
    | SetOk t' => ok = true /\ h' !! 1%positive = Some t'
    | SetRangeError => ok = false /\ h' !! 1%positive = Some t
    end /\
    forall (l : Obj.ref) (v : list byte),
      l <> 1%positive -> h !! l = Some v -> h' !! l = Some v.
Proof.
  intros t s h.
  apply (write_in_place h 1%positive 2%positive t s (Some 1)); reflexivity.
Defined.

(** X23.  [slice] and [subarray] both return a copy, not a window on the
    receiver: the result is a new array with the bytes of the range, no
    array that existed before is changed, and a later [write] into the
    receiver does not show in the result. *)
Theorem slice_subarray_are_copies
    (h : Obj.store) (this : Obj.ref) (bytes : list byte)
    (start end_ : option Z) :
  h !! this = Some bytes ->
  let range :=
    js_slice bytes (default 0 start) (default (Z.of_nat (length bytes)) end_) in
  (exists (r : Obj.ref) (h1 : Obj.store),
      Obj.Buff_slice h this start end_ = Some (r, h1) /\
      h1 !! r = Some range /\ h !! r = None /\ h1 !! this = Some bytes /\
      forall src offset ok h2,
        Obj.Buff_write h1 this src offset = Some (ok, h2) ->
        h2 !! r = Some range) /\
  (exists (r : Obj.ref) (h1 : Obj.store),
      Obj.Buff_subarray h this start end_ = Some (r, h1) /\
      h1 !! r = Some range /\ h !! r = None /\ h1 !! this = Some bytes /\
      forall src offset ok h2,
        Obj.Buff_write h1 this src offset = Some (ok, h2) ->
        h2 !! r = Some range).
Proof.
  intros Hthis range. split.
  - destruct (Buff_slice_obj h this bytes start end_ Hthis)
      as (r & h1 & Hrun & Hr & Hfresh & Hsub).
    exists r, h1. split; [exact Hrun|]. split; [exact Hr|].
    split; [exact Hfresh|]. split; [exact (lookup_weaken _ _ _ _ Hthis Hsub)|].
    intros src offset ok h2 Hwrite.
    apply (Buff_write_frame h1 h2 this src offset ok Hwrite); [|exact Hr].
    intros ->. congruence.
  - destruct (Buff_subarray_obj h this bytes start end_ Hthis)
      as (r & h1 & Hrun & Hr & Hfresh & Hsub).
    exists r, h1. split; [exact Hrun|]. split; [exact Hr|].
    split; [exact Hfresh|]. split; [exact (lookup_weaken _ _ _ _ Hthis Hsub)|].
    intros src offset ok h2 Hwrite.
    apply (Buff_write_frame h1 h2 this src offset ok Hwrite); [|exact Hr].
    intros ->. congruence.
Qed.

Lemma slice_subarray_are_copies_witness :
  let bytes := [Byte.x01; Byte.x02; Byte.x03; Byte.x04] in
  let h : Obj.store := {[ 1%positive := bytes ]} in
  let range := js_slice bytes (default 0 (Some 1)) (default 4 (Some (-1))) in
  (exists (r : Obj.ref) (h1 : Obj.store),
      Obj.Buff_slice h 1%positive (Some 1) (Some (-1)) = Some (r, h1) /\
      h1 !! r = Some range /\ h !! r = None /\ h1 !! 1%positive = Some bytes /\
      forall src offset ok h2,
        Obj.Buff_write h1 1%positive src offset = Some (ok, h2) ->
        h2 !! r = Some range) /\
  (exists (r : Obj.ref) (h1 : Obj.store),
      Obj.Buff_subarray h 1%positive (Some 1) (Some (-1)) = Some (r, h1) /\
      h1 !! r = Some range /\ h !! r = None /\ h1 !! 1%positive = Some bytes /\
      forall src offset ok h2,
        Obj.Buff_write h1 1%positive src offset = Some (ok, h2) ->
        h2 !! r = Some range).
Proof.
  intros bytes h range.
  apply (slice_subarray_are_copies h 1%positive bytes (Some 1) (Some (-1))).
  reflexivity.
Defined.

(** ** Objects: the reader *)

(** [read (size)] on objects against [read (size)] on values. *)
Lemma read_sized_obj
    (pad : list byte -> Z -> list byte)
    (sz : Z) (h : Obj.store) (s : Obj.Stream) (bytes : list byte) :
  h !! Obj.data s = Some bytes ->
  Obj.size s = Z.of_nat (length bytes) ->
  exists (res : result Obj.ref) (h' : Obj.store) (s' : Obj.Stream)
         (bytes' : list byte),
    Obj.read_sized sz h s = Some (res, h', s') /\
    h ⊆ h' /\
    h' !! Obj.data s' = Some bytes' /\
    Obj.size s' = Z.of_nat (length bytes') /\
    match res with
    | Ok r =>
        exists chunk : list byte,
          h' !! r = Some chunk /\ h !! r = None /\
          read_sized pad sz (Stream_of bytes) = (Ok chunk, Stream_of bytes')
    | Err e =>
        read_sized pad sz (Stream_of bytes) = (Err e, Stream_of bytes') /\
        h' = h /\ s' = s
    end.
Proof.
  intros Hdata Hsize. unfold Obj.read_sized.
  destruct (peek_obj_total sz h s bytes Hdata)
    as ([r|e] & h1 & -> & Hsub1 & Hres); cbn.
  - destruct Hres as (Hle & Hr & Hfresh).
    pose proof (lookup_weaken _ _ _ _ Hdata Hsub1) as Hdata1.
    destruct (Uint8Array_slice_from_spec h1 (Obj.data s) bytes sz Hdata1)
      as (d & h2 & -> & Hd & _ & Hsub2).
    cbn. rewrite Hd. cbn.
    eexists (Ok r), h2, _, (js_slice_from bytes sz).
    split; [reflexivity|]. split; [etransitivity; eassumption|].
    split; [exact Hd|]. split; [reflexivity|].
    exists (js_slice bytes 0 sz).
    split; [exact (lookup_weaken _ _ _ _ Hr Hsub2)|]. split; [exact Hfresh|].
    rewrite read_sized_within by (cbn [size Stream_of]; lia).
    cbn [data Stream_of]. rewrite js_slice_prefix, js_slice_from_suffix.
    reflexivity.
  - destruct Hres as (-> & Hgt & ->).
    exists (Err (SizeExceeded sz (Obj.size s))), h, s, bytes.
    split; [reflexivity|]. split; [reflexivity|].
    split; [exact Hdata|]. split; [exact Hsize|].
    split; [|split; reflexivity].
    rewrite read_sized_exceeds by (cbn [size Stream_of]; lia).
    cbn [size Stream_of]. rewrite Hsize. reflexivity.
Qed.

(** X24.  The reader on objects does what the reader on values does.  A
    [read (size)] on a stream object whose array holds [bytes] returns or
    throws as [read (size)] on the value [bytes] does; when it returns, the
    chunk is a new array with the bytes of the value-level chunk and the
    stream object points at a new array with the value-level rest; when it
    throws, the store and the stream object are as before.  No array that
    existed before is changed. *)
Theorem read_sized_on_objects
    (pad : list byte -> Z -> list byte)
    (sz : Z) (h : Obj.store) (s : Obj.Stream) (bytes : list byte) :
  h !! Obj.data s = Some bytes ->
  Obj.size s = Z.of_nat (length bytes) ->
  exists (res : result Obj.ref) (h' : Obj.store) (s' : Obj.Stream)
         (bytes' : list byte),
    Obj.read_sized sz h s = Some (res, h', s') /\
    h ⊆ h' /\
    h' !! Obj.data s' = Some bytes' /\
    Obj.size s' = Z.of_nat (length bytes') /\
    match res with
    | Ok r =>
        exists chunk : list byte,
          h' !! r = Some chunk /\ h !! r = None /\
          read_sized pad sz (Stream_of bytes) = (Ok chunk, Stream_of bytes')
    | Err e =>
        read_sized pad sz (Stream_of bytes) = (Err e, Stream_of bytes') /\
        h' = h /\ s' = s
    end.
Proof.
  apply read_sized_obj.
Qed.

Lemma read_sized_on_objects_witness :
  let pad := pad_array_model pad_left in
  let bytes := [Byte.x01; Byte.x02; Byte.x03] in
  let h : Obj.store := {[ 1%positive := bytes ]} in
  let s := {| Obj.size := 3; Obj.data := 1%positive |} in
  exists (res : result Obj.ref) (h' : Obj.store) (s' : Obj.Stream)
         (bytes' : list byte),
    Obj.read_sized 2 h s = Some (res, h', s') /\
    h ⊆ h' /\
    h' !! Obj.data s' = Some bytes' /\
    Obj.size s' = Z.of_nat (length bytes') /\
    match res with
    | Ok r =>
        exists chunk : list byte,
          h' !! r = Some chunk /\ h !! r = None /\
          read_sized pad 2 (Stream_of bytes) = (Ok chunk, Stream_of bytes')
    | Err e =>
        read_sized pad 2 (Stream_of bytes) = (Err e, Stream_of bytes') /\
        h' = h /\ s' = s
    end.
Proof.
  intros pad bytes h s.
  apply (read_sized_on_objects pad 2 h s bytes); reflexivity.
Defined.

Lemma reads_obj (sizes : list Z) :
  forall (h : Obj.store) (s : Obj.Stream) (bytes : list byte),
    h !! Obj.data s = Some bytes ->
    Obj.size s = Z.of_nat (length bytes) ->
    exists (h' : Obj.store) (s' : Obj.Stream),
      Obj.reads sizes h s = Some (h', s') /\ h ⊆ h'.
Proof.
  induction sizes as [|sz sizes IH]; intros h s bytes Hdata Hsize.
  - exists h, s. split; reflexivity.
  - destruct (read_sized_obj (fun b _ => b) sz h s bytes Hdata Hsize)
      as (res & h1 & s1 & bytes1 & Hrun & Hsub1 & Hdata1 & Hsize1 & _).
    cbn [Obj.reads]. rewrite Hrun. cbn.
    destruct (IH h1 s1 bytes1 Hdata1 Hsize1) as (h2 & s2 & Hrest & Hsub2).
    exists h2, s2. split; [exact Hrest|]. etransitivity; eassumption.
Qed.

(** X25.  A stream owns its bytes: [new Stream (buff)] copies the buffer
    into an array of its own, and whatever is read from the stream
    afterwards, returning or throwing, the array of the buffer and every
    other array that existed are unchanged. *)
Theorem Stream_leaves_buffer
    (h : Obj.store) (buff : Obj.ref) (bytes : list byte) (sizes : list Z) :
  h !! buff = Some bytes ->
  exists (s : Obj.Stream) (h1 : Obj.store),
    Obj.Stream_new h buff = Some (s, h1) /\
    Obj.data s <> buff /\
    h1 !! Obj.data s = Some bytes /\
    Obj.size s = Z.of_nat (length bytes) /\
    exists (h2 : Obj.store) (s2 : Obj.Stream),
      Obj.reads sizes h1 s = Some (h2, s2) /\
      h2 !! buff = Some bytes /\
      forall (l : Obj.ref) (v : list byte),
        h !! l = Some v -> h2 !! l = Some v.
Proof.
  intros Hbuff. unfold Obj.Stream_new, Obj.Buff_new.
  destruct (Uint8Array_new_spec h buff bytes Hbuff)
    as (d & h1 & -> & Hd & Hfresh & Hsub1).
  cbn. rewrite Hd. cbn.
  eexists _, h1. split; [reflexivity|]. cbn [Obj.data Obj.size].
  split; [intros ->; congruence|]. split; [exact Hd|].
  split; [reflexivity|].
  destruct (reads_obj sizes h1
              {| Obj.size := Z.of_nat (length bytes); Obj.data := d |}
              bytes Hd eq_refl) as (h2 & s2 & Hrun & Hsub2).
  exists h2, s2. split; [exact Hrun|].
  assert (h ⊆ h2) as Hsub by (etransitivity; eassumption).
  split; [exact (lookup_weaken _ _ _ _ Hbuff Hsub)|].
  intros l v Hl. exact (lookup_weaken _ _ _ _ Hl Hsub).
Qed.

Lemma Stream_leaves_buffer_witness :
  let bytes := [Byte.x01; Byte.x02; Byte.x03] in
  let h : Obj.store := {[ 1%positive := bytes ]} in
  exists (s : Obj.Stream) (h1 : Obj.store),
    Obj.Stream_new h 1%positive = Some (s, h1) /\
    Obj.data s <> 1%positive /\
    h1 !! Obj.data s = Some bytes /\
    Obj.size s = Z.of_nat (length bytes) /\
    exists (h2 : Obj.store) (s2 : Obj.Stream),
      Obj.reads [1; 5; -1; 2] h1 s = Some (h2, s2) /\
      h2 !! 1%positive = Some bytes /\
      forall (l : Obj.ref) (v : list byte),
        h !! l = Some v -> h2 !! l = Some v.
Proof.
  intros bytes h.
  apply (Stream_leaves_buffer h 1%positive bytes [1; 5; -1; 2]).
  reflexivity.
Defined.

(** ** The reader at its edges *)

(** X26.  A drained stream: [peek] and [read] of a size that is not
    positive return the empty buffer and leave the stream drained; of a
    positive size they throw SizeExceeded; and so do [readSize] and
    [read ()], which ask for one byte. *)
Theorem drained_stream
    (pad : list byte -> Z -> list byte) (sz : Z) (endian : option Endian) :
  peek pad sz (Stream_of [])
  = (if sz >? 0 then Err (SizeExceeded sz 0) else Ok [], Stream_of []) /\
  read pad (Some sz) (Stream_of [])
  = (if sz >? 0 then Err (SizeExceeded sz 0) else Ok [], Stream_of []) /\
  readSize pad endian (Stream_of []) = (Err (SizeExceeded 1 0), Stream_of []) /\
  read pad None (Stream_of []) = (Err (SizeExceeded 1 0), Stream_of []).
Proof.
  rewrite read_some. split; [|split; [|split; reflexivity]].
  - destruct (Z.gtb_spec sz 0).
    + rewrite peek_exceeds by (cbn; lia). reflexivity.
    + rewrite peek_within by (cbn; lia). cbn [data Stream_of].
      rewrite firstn_nil. reflexivity.
  - destruct (Z.gtb_spec sz 0).
    + rewrite read_sized_exceeds by (cbn; lia). reflexivity.
    + rewrite read_sized_within by (cbn; lia). cbn [data Stream_of].
      rewrite firstn_nil, skipn_nil. reflexivity.
Qed.

(** X27.  A negative size is not refused.  [read (-k)], for k > 0, never
    throws: it returns the remaining bytes but the last [k] and leaves the
    last [k] (when fewer than [k] remain it returns nothing and leaves them
    all); [peek (-k)] returns the same chunk and leaves the stream as it
    was. *)
Theorem read_negative_size_keeps_tail
    (pad : list byte -> Z -> list byte) (bytes : list byte) (k : Z) :
  0 < k ->
  let n := (length bytes - Z.to_nat k)%nat in
  read pad (Some (- k)) (Stream_of bytes)
  = (Ok (firstn n bytes), Stream_of (skipn n bytes)) /\
  peek pad (- k) (Stream_of bytes) = (Ok (firstn n bytes), Stream_of bytes).
Proof.
  intros Hk n.
  assert (cut bytes (- k) = n) as Hcut.
  { unfold cut, rel_index. destruct (Z.ltb_spec (- k) 0); lia. }
  rewrite read_some, read_sized_within, peek_within by (cbn; lia).
  cbn [data Stream_of]. rewrite Hcut. split; reflexivity.
Qed.

Lemma read_negative_size_keeps_tail_witness :
  let pad := pad_array_model pad_left in
  let bytes := [Byte.x01; Byte.x02; Byte.x03; Byte.x04; Byte.x05] in
  read pad (Some (- 2)) (Stream_of bytes)
  = (Ok [Byte.x01; Byte.x02; Byte.x03], Stream_of [Byte.x04; Byte.x05]) /\
  peek pad (- 2) (Stream_of bytes)
  = (Ok [Byte.x01; Byte.x02; Byte.x03], Stream_of bytes).
Proof.
  intros pad bytes. apply (read_negative_size_keeps_tail pad bytes 2). lia.
Defined.

(** ** Big integers *)

Lemma bytesToBig_bytesToNum (bytes : list byte) :
  bytesToBig bytes = bytesToNum bytes.
Proof.
  induction bytes as [|b bytes IH]; cbn; [reflexivity|].
  rewrite IH. reflexivity.
Qed.

(** X28.  Big integers take the same road as numbers.  Without a target
    size [Buff.big (n, undefined, endian).toBig (endian)] is [n] for every
    integer that is not negative, in both endiannesses and whatever the
    padding helper is; with a target size in which [n] fits and a padding
    helper that suits the endianness, the buffer has that size and [toBig]
    reads [n] back. *)
Theorem bigToBuff_toBig
    (pad : list byte -> Z -> list byte) (n : Z) (width : nat)
    (endian : option Endian) :
  0 <= n ->
  toBig pad (bigToBuff pad n None endian) endian = n /\
  (pad_suits pad (endian_or_be endian) ->
   n < 256 ^ Z.of_nat width ->
   length (bigToBuff pad n (Some (Z.of_nat width)) endian) = width /\
   toBig pad (bigToBuff pad n (Some (Z.of_nat width)) endian) endian = n).
Proof.
  intros Hn.
  assert (forall size e, bigToBuff pad n size e = numToBuff pad n size e)
    as Hsame by reflexivity.
  assert (forall b e, toBig pad b e = toNum pad b e) as Hnum.
  { intros b e. unfold toBig, toNum. apply bytesToBig_bytesToNum. }
  rewrite !Hsame, !Hnum. split.
  - unfold toNum, numToBuff, Buff_reverse, Buff_new.
    destruct (endian_or_be endian).
    + rewrite rev_involutive. apply bytesToNum_numToBytes, Hn.
    + apply bytesToNum_numToBytes, Hn.
  - intros Hpad Hfit.
    change (bigToBuff pad n (Some (Z.of_nat width)) endian)
      with (numToBuff pad n (Some (Z.of_nat width)) endian).
    rewrite ?Hnum.
    assert (numToBuff pad n (Some (Z.of_nat width)) endian
            = uint_bytes (endian_or_be endian) width n) as ->.
    { destruct endian as [[|]|]; cbn [endian_or_be pad_suits] in *.
      - apply numToBuff_be; auto.
      - apply numToBuff_le; auto.
      - apply numToBuff_be; auto. }
    split; [apply uint_bytes_length|]. apply toNum_uint_bytes. lia.
Qed.

Lemma bigToBuff_toBig_witness :
  let pad := pad_array_model pad_right in
  toBig pad (bigToBuff pad (2 ^ 70 + 5) None (Some le)) (Some le) = 2 ^ 70 + 5 /\
  length (bigToBuff pad (2 ^ 70 + 5) (Some (Z.of_nat 16)) (Some le)) = 16%nat /\
  toBig pad (bigToBuff pad (2 ^ 70 + 5) (Some (Z.of_nat 16)) (Some le))
    (Some le) = 2 ^ 70 + 5.
Proof.
  intros pad.
  destruct (bigToBuff_toBig pad (2 ^ 70 + 5) 16 (Some le) ltac:(lia))
    as [Hunsized Hsized].
  split; [exact Hunsized|].
  apply Hsized; [apply pad_right_zeros_back|cbn; lia].
Defined.


(** ** [read ()] with the size omitted *)

(** [toNum] on objects computes the number of [toNum] on values and
    changes no array. *)
Lemma toNum_obj (pad : list byte -> Z -> list byte)
    (h : Obj.store) (this : Obj.ref) (bytes : list byte)
    (endian : option Endian) :
  h !! this = Some bytes ->
  exists h' : Obj.store,
    Obj.toNum h this endian = Some (toNum pad bytes endian, h') /\ h ⊆ h'.
Proof.
  intros Hthis. unfold Obj.toNum, toNum, Buff_reverse, Buff_new.
  destruct (endian_or_be endian).
  - destruct (Buff_reverse_obj h this bytes Hthis)
      as (r & h1 & -> & Hr & _ & Hsub).
    cbn. rewrite Hr. cbn. exists h1. split; [reflexivity|exact Hsub].
  - rewrite Hthis. cbn. exists h. split; reflexivity.
Qed.

(** [this.read(width).toNum(endian)] on objects and on values. *)
Lemma read_toNum_obj (pad : list byte -> Z -> list byte)
    (width : Z) (endian : option Endian)
    (h : Obj.store) (s : Obj.Stream) (bytes : list byte) :
  h !! Obj.data s = Some bytes ->
  Obj.size s = Z.of_nat (length bytes) ->
  exists (res : result Z) (h' : Obj.store) (s' : Obj.Stream)
         (bytes' : list byte),
    Obj.read_toNum width endian h s = Some (res, h', s') /\
    h ⊆ h' /\
    h' !! Obj.data s' = Some bytes' /\
    Obj.size s' = Z.of_nat (length bytes') /\
    bind (read_sized pad width) (fun c => ret (toNum pad c endian))
      (Stream_of bytes)
    = (res, Stream_of bytes').
Proof.
  intros Hdata Hsize. unfold Obj.read_toNum, bind.
  destruct (read_sized_obj pad width h s bytes Hdata Hsize)
    as ([r|e] & h1 & s1 & bytes1 & -> & Hsub1 & Hdata1 & Hsize1 & Hres);
    cbn -[Obj.toNum Obj.read_toNum Obj.read_sized].
  - destruct Hres as (chunk & Hr & _ & ->).
    destruct (toNum_obj pad h1 r chunk endian Hr) as (h2 & -> & Hsub2).
    cbn -[Obj.toNum]. exists (Ok (toNum pad chunk endian)), h2, s1, bytes1.
    split; [reflexivity|]. split; [etransitivity; eassumption|].
    split; [exact (lookup_weaken _ _ _ _ Hdata1 Hsub2)|].
    split; [exact Hsize1|reflexivity].
  - destruct Hres as (-> & _ & _).
    exists (Err e), h1, s1, bytes1.
    split; [reflexivity|]. split; [exact Hsub1|].
    split; [exact Hdata1|]. split; [exact Hsize1|reflexivity].
Qed.

(** [readSize] on objects and on values. *)
Lemma readSize_obj (pad : list byte -> Z -> list byte)
    (endian : option Endian)
    (h : Obj.store) (s : Obj.Stream) (bytes : list byte) :
  h !! Obj.data s = Some bytes ->
  Obj.size s = Z.of_nat (length bytes) ->
  exists (res : result Z) (h' : Obj.store) (s' : Obj.Stream)
         (bytes' : list byte),
    Obj.readSize endian h s = Some (res, h', s') /\
    h ⊆ h' /\
    h' !! Obj.data s' = Some bytes' /\
    Obj.size s' = Z.of_nat (length bytes') /\
    readSize pad endian (Stream_of bytes) = (res, Stream_of bytes').
Proof.
  intros Hdata Hsize. unfold Obj.readSize, readSize. unfold bind at 1.
  destruct (read_sized_obj pad 1 h s bytes Hdata Hsize)
    as ([r|e] & h1 & s1 & bytes1 & -> & Hsub1 & Hdata1 & Hsize1 & Hres);
    cbn -[Obj.toNum Obj.read_toNum Obj.read_sized].
  - destruct Hres as (first & Hr & _ & ->).
    destruct (toNum_obj pad h1 r first None Hr) as (h2 & -> & Hsub2).
    cbn -[Z.leb Z.ltb Z.eqb Obj.read_toNum]. set (num := bytesToNum (rev first)).
    pose proof (lookup_weaken _ _ _ _ Hdata1 Hsub2) as Hdata2.
    assert (h ⊆ h2) as Hsub by (etransitivity; eassumption).
    destruct ((0 <=? num) && (num <? 0xFD)).
    { exists (Ok num), h2, s1, bytes1. auto 10. }
    assert (forall width,
      exists res h' s' bytes',
        Obj.read_toNum width endian h2 s1 = Some (res, h', s') /\
        h ⊆ h' /\ h' !! Obj.data s' = Some bytes' /\
        Obj.size s' = Z.of_nat (length bytes') /\
        bind (read_sized pad width) (fun c => ret (toNum pad c endian))
          (Stream_of bytes1)
        = (res, Stream_of bytes')) as Hlong.
    { intros width.
      destruct (read_toNum_obj pad width endian h2 s1 bytes1 Hdata2 Hsize1)
        as (res & h3 & s3 & bytes3 & Hrun & Hsub3 & Hdata3 & Hsize3 & Hval).
      exists res, h3, s3, bytes3. split; [exact Hrun|].
      split; [etransitivity; eassumption|]. auto. }
    destruct (num =? 0xFD); [apply Hlong|].
    destruct (num =? 0xFE); [apply Hlong|].
    destruct (num =? 0xFF); [apply Hlong|].
    exists (Err (InvalidPrefix num)), h2, s1, bytes1. auto 10.
  - destruct Hres as (-> & _ & _).
    exists (Err e), h1, s1, bytes1. auto 10.
Qed.

(** [read ()] on objects and on values: the payload returned is a new
    array, and no array that existed before is changed. *)
Lemma read_none_obj (pad : list byte -> Z -> list byte)
    (h : Obj.store) (s : Obj.Stream) (bytes : list byte) :
  h !! Obj.data s = Some bytes ->
  Obj.size s = Z.of_nat (length bytes) ->
  exists (res : result Obj.ref) (h' : Obj.store) (s' : Obj.Stream)
         (bytes' : list byte),
    Obj.read None h s = Some (res, h', s') /\
    h ⊆ h' /\
    h' !! Obj.data s' = Some bytes' /\
    Obj.size s' = Z.of_nat (length bytes') /\
    match res with
    | Ok r =>
        exists payload : list byte,
          h' !! r = Some payload /\ h !! r = None /\
          read pad None (Stream_of bytes) = (Ok payload, Stream_of bytes')
    | Err e => read pad None (Stream_of bytes) = (Err e, Stream_of bytes')
    end.
Proof.
  intros Hdata Hsize. unfold Obj.read. rewrite read_none.
  destruct (readSize_obj pad None h s bytes Hdata Hsize)
    as ([n|e] & h1 & s1 & bytes1 & -> & Hsub1 & Hdata1 & Hsize1 & ->);
    cbn -[Obj.toNum Obj.read_toNum Obj.read_sized].
  - destruct (read_sized_obj pad n h1 s1 bytes1 Hdata1 Hsize1)
      as (res & h2 & s2 & bytes2 & -> & Hsub2 & Hdata2 & Hsize2 & Hres).
    exists res, h2, s2, bytes2. split; [reflexivity|].
    split; [etransitivity; eassumption|]. split; [exact Hdata2|].
    split; [exact Hsize2|].
    destruct res as [r|e].
    + destruct Hres as (payload & Hr & Hfresh & Hval).
      exists payload. split; [exact Hr|].
      split; [exact (fresh_in_extension h h1 r Hsub1 Hfresh)|exact Hval].
    + destruct Hres as (Hval & _ & _). exact Hval.
  - exists (Err e), h1, s1, bytes1. auto 10.
Qed.

(** What [readSize ()] makes of a prefix in one of its forms: the decoded
    number, and the stream left behind the prefix. *)
Lemma readSize_varint_form (pad : list byte -> Z -> list byte)
    (prefix rest : list byte) (n : Z) :
  varint_form prefix n ->
  readSize pad None (Stream_of (prefix ++ rest)) = (Ok n, Stream_of rest).
Proof.
  intros [[Hn ->]|(marker & width & Hform & Hn & ->)].
  - cbn [app]. rewrite readSize_cons. cbv zeta.
    rewrite byte_to_of_Z, Z.mod_small by lia.
    destruct (Z.leb_spec 0 n); [|lia].
    destruct (Z.ltb_spec n 0xFD); [|lia]. reflexivity.
  - cbn [app]. rewrite readSize_cons.
    destruct Hform as [[-> ->]|[[-> ->]|[-> ->]]];
      cbn -[read_sized toNum uint_bytes Z.of_nat]; unfold bind.
    + change 2 with (Z.of_nat 2) at 1. rewrite read_uint_bytes. unfold ret.
      rewrite (toNum_uint_bytes pad None) by exact Hn. reflexivity.
    + change 4 with (Z.of_nat 4) at 1. rewrite read_uint_bytes. unfold ret.
      rewrite (toNum_uint_bytes pad None) by exact Hn. reflexivity.
    + change 8 with (Z.of_nat 8) at 1. rewrite read_uint_bytes. unfold ret.
      rewrite (toNum_uint_bytes pad None) by exact Hn. reflexivity.
Qed.

(** The bytes behind a marker, read big-endian, are the fixed-width form of
    the number read. *)
Lemma toNum_be_inv (pad : list byte -> Z -> list byte)
    (c : Buff) (width : nat) :
  length c = width ->
  c = uint_bytes be width (toNum pad c None) /\
  0 <= toNum pad c None < 256 ^ Z.of_nat width.
Proof.
  intros Hlen. unfold toNum, Buff_reverse, Buff_new. cbn [endian_or_be uint_bytes].
  pose proof (bytesToNum_nonneg (rev c)) as Hge.
  pose proof (bytesToNum_bound (rev c)) as Hlt.
  rewrite length_rev, Hlen in Hlt. split; [|lia].
  rewrite <- (rev_involutive c) at 1. f_equal.
  apply bytesToNum_inj.
  - rewrite length_rev, uint_le_length. exact Hlen.
  - rewrite uint_le_value, Z.mod_small by lia. reflexivity.
Qed.

(** A successful [readSize ()] has consumed a prefix in one of the forms of
    the number it returns. *)
Lemma readSize_ok_form (pad : list byte -> Z -> list byte)
    (s s1 : Stream) (n : Z) :
  Stream_ok s ->
  readSize pad None s = (Ok n, s1) ->
  exists prefix : list byte,
    data s = prefix ++ data s1 /\ s1 = Stream_of (data s1) /\
    varint_form prefix n.
Proof.
  intros Hok. unfold readSize. unfold bind at 1.
  destruct (read_sized pad 1 s) as [[first|e] s0] eqn:E1; [|discriminate].
  pose proof (read_sized_ok_length pad 1 s s0 first Hok ltac:(lia) E1) as Hlen.
  apply read_sized_ok in E1 as (_ & Hsplit & Hof & _).
  assert (Stream_ok s0) as Hok0 by (rewrite Hof; apply Stream_of_ok).
  destruct first as [|b [|b' first]]; cbn in Hlen; try lia.
  replace (Buff_num pad [b]) with (byte_to_Z b)
    by (unfold Buff_num, toNum; cbn; lia).
  cbv zeta. pose proof (byte_to_Z_range b) as Hb.
  destruct (Z.leb_spec 0 (byte_to_Z b)); [|lia].
  destruct (Z.ltb_spec (byte_to_Z b) 0xFD); cbn [andb].
  { intros [= <- <-]. exists [b]. split; [exact Hsplit|]. split; [exact Hof|].
    left. split; [lia|]. rewrite byte_of_to_Z. reflexivity. }
  assert (forall (marker : byte) (width : nat),
            b = marker -> long_form marker width ->
            bind (read_sized pad (Z.of_nat width))
              (fun c => ret (toNum pad c None)) s0 = (Ok n, s1) ->
            exists prefix : list byte,
              data s = prefix ++ data s1 /\ s1 = Stream_of (data s1) /\
              varint_form prefix n) as Hlong.
  { intros marker width -> Hform Hrun.
    apply read_toNum_ok in Hrun as (c & Hc & Hof1 & Hlenc & ->);
      [|exact Hok0|lia].
    destruct (toNum_be_inv pad c width ltac:(lia)) as [Hcw Hrange].
    exists (marker :: c). split; [rewrite Hsplit, Hc; reflexivity|].
    split; [exact Hof1|]. right. exists marker, width.
    split; [exact Hform|]. split; [exact Hrange|]. rewrite <- Hcw.
    reflexivity. }
  destruct (Z.eqb_spec (byte_to_Z b) 0xFD) as [E|_].
  { apply (Hlong Byte.xfd 2%nat).
    - apply byte_to_Z_inj. rewrite E. reflexivity.
    - left. split; reflexivity. }
  destruct (Z.eqb_spec (byte_to_Z b) 0xFE) as [E|_].
  { apply (Hlong Byte.xfe 4%nat).
    - apply byte_to_Z_inj. rewrite E. reflexivity.
    - right. left. split; reflexivity. }
  destruct (Z.eqb_spec (byte_to_Z b) 0xFF) as [E|_].
  { apply (Hlong Byte.xff 8%nat).
    - apply byte_to_Z_inj. rewrite E. reflexivity.
    - right. right. split; reflexivity. }
  discriminate.
Qed.

Lemma varint_form_nonneg (prefix : list byte) (n : Z) :
  varint_form prefix n -> 0 <= n.
Proof.
  intros [[Hn _]|(marker & width & _ & Hn & _)]; lia.
Qed.

(** C7.  [read ()] with the size omitted decodes a varint length prefix with
    [readSize ()] and then reads that many bytes.  Forward: when the
    remaining bytes are a prefix in one of the forms of [readSize] (one
    byte below 0xFD, or a marker with the 2, 4 or 8 big-endian bytes of the
    number) announcing the length of the payload that follows, [readSize ()]
    returns that length and leaves the stream at the payload, and [read ()]
    returns the payload and leaves the stream behind it, the remaining
    length down by the length of the prefix plus that of the payload; on
    objects the payload is a new array, the stream points at the rest, and
    no array that existed before is changed.  Backward: whenever [read ()]
    returns, the remaining bytes were such a prefix, announcing the length
    of the returned payload, then the payload, then what remains.  Lengths
    are below 2^53, as every length of an array is. *)
Theorem read_omitted_size
    (pad : list byte -> Z -> list byte)
    (h : Obj.store) (s : Obj.Stream) (prefix payload rest : list byte) :
  varint_form prefix (Z.of_nat (length payload)) ->
  Z.of_nat (length payload) < 2 ^ 53 ->
  h !! Obj.data s = Some (prefix ++ payload ++ rest) ->
  Obj.size s = Z.of_nat (length (prefix ++ payload ++ rest)) ->
  readSize pad None (Stream_of (prefix ++ payload ++ rest))
  = (Ok (Z.of_nat (length payload)), Stream_of (payload ++ rest)) /\
  read pad None (Stream_of (prefix ++ payload ++ rest))
  = (Ok payload, Stream_of rest) /\
  size (Stream_of rest)
  = size (Stream_of (prefix ++ payload ++ rest))
    - Z.of_nat (length prefix) - Z.of_nat (length payload) /\
  (exists (r : Obj.ref) (h' : Obj.store) (s' : Obj.Stream),
      Obj.read None h s = Some (Ok r, h', s') /\
      h' !! r = Some payload /\
      h !! r = None /\
      h' !! Obj.data s' = Some rest /\
      Obj.size s' = Z.of_nat (length rest) /\
      forall (l : Obj.ref) (v : list byte),
        h !! l = Some v -> h' !! l = Some v) /\
  (forall (st st' : Stream) (chunk : Buff),
      Stream_ok st ->
      size st < 2 ^ 53 ->
      read pad None st = (Ok chunk, st') ->
      exists pre : list byte,
        varint_form pre (Z.of_nat (length chunk)) /\
        data st = pre ++ chunk ++ data st' /\
        size st'
        = size st - Z.of_nat (length pre) - Z.of_nat (length chunk) /\
        Stream_ok st').
Proof.
  intros Hform _ Hdata Hsize.
  assert (readSize pad None (Stream_of (prefix ++ payload ++ rest))
          = (Ok (Z.of_nat (length payload)), Stream_of (payload ++ rest)))
    as HreadSize by (apply readSize_varint_form, Hform).
  assert (read pad None (Stream_of (prefix ++ payload ++ rest))
          = (Ok payload, Stream_of rest)) as Hread
    by (rewrite read_none, HreadSize; apply read_sized_app).
  split; [exact HreadSize|]. split; [exact Hread|]. split; [|split].
  - cbn [size Stream_of]. rewrite !length_app. lia.
  - destruct (read_none_obj pad h s _ Hdata Hsize)
      as (res & h' & s' & bytes' & Hrun & Hsub & Hdata' & Hsize' & Hres).
    destruct res as [r|e]; [|rewrite Hread in Hres; discriminate].
    destruct Hres as (payload' & Hr & Hfresh & Hval).
    rewrite Hread in Hval.
    assert (payload' = payload /\ bytes' = rest) as [-> ->]
      by (unfold Stream_of in Hval; inversion Hval; auto).
    exists r, h', s'. split; [exact Hrun|]. split; [exact Hr|].
    split; [exact Hfresh|]. split; [exact Hdata'|]. split; [exact Hsize'|].
    intros l v Hl. exact (lookup_weaken _ _ _ _ Hl Hsub).
  - intros st st' chunk Hok _ Hrun. rewrite read_none in Hrun.
    destruct (readSize pad None st) as [[n|e] s1] eqn:E1; [|discriminate].
    destruct (readSize_ok_form pad st s1 n Hok E1)
      as (pre & Hpre & Hof1 & Hpreform).
    assert (Stream_ok s1) as Hok1 by (rewrite Hof1; apply Stream_of_ok).
    pose proof (varint_form_nonneg pre n Hpreform) as Hn.
    pose proof (read_sized_ok_length pad n s1 st' chunk Hok1 Hn Hrun) as Hlen.
    apply read_sized_ok in Hrun as (_ & Hsplit & Hof2 & _).
    exists pre. rewrite Hlen. split; [exact Hpreform|].
    split; [rewrite Hpre, Hsplit; reflexivity|].
    split; [|rewrite Hof2; apply Stream_of_ok].
    rewrite Hof2. cbn [size Stream_of]. unfold Stream_ok in Hok.
    rewrite Hok, Hpre, Hsplit, !length_app. lia.
Qed.

Lemma read_omitted_size_witness :
  let pad := pad_array_model pad_left in
  let prefix := [Byte.xfd; Byte.x00; Byte.x02] in
  let payload := [Byte.xaa; Byte.xbb] in
  let rest := [Byte.xcc] in
  let h : Obj.store := {[ 1%positive := prefix ++ payload ++ rest ]} in
  let s := {| Obj.size := 6; Obj.data := 1%positive |} in
  readSize pad None (Stream_of (prefix ++ payload ++ rest))
  = (Ok 2, Stream_of (payload ++ rest)) /\
  read pad None (Stream_of (prefix ++ payload ++ rest))
  = (Ok payload, Stream_of rest) /\
  size (Stream_of rest)
  = size (Stream_of (prefix ++ payload ++ rest)) - 3 - 2 /\
  (exists (r : Obj.ref) (h' : Obj.store) (s' : Obj.Stream),
      Obj.read None h s = Some (Ok r, h', s') /\
      h' !! r = Some payload /\
      h !! r = None /\
      h' !! Obj.data s' = Some rest /\
      Obj.size s' = 1 /\
      forall (l : Obj.ref) (v : list byte),
        h !! l = Some v -> h' !! l = Some v) /\
  (forall (st st' : Stream) (chunk : Buff),
      Stream_ok st ->
      size st < 2 ^ 53 ->
      read pad None st = (Ok chunk, st') ->
      exists pre : list byte,
        varint_form pre (Z.of_nat (length chunk)) /\
        data st = pre ++ chunk ++ data st' /\
        size st'
        = size st - Z.of_nat (length pre) - Z.of_nat (length chunk) /\
        Stream_ok st').
Proof.
  intros pad prefix payload rest h s.
  apply (read_omitted_size pad h s prefix payload rest).
  - right. exists Byte.xfd, 2%nat.
    split; [left; split; reflexivity|]. split; [cbn; lia|reflexivity].
  - cbn. lia.
  - reflexivity.
  - reflexivity.
Defined.
